(** * AnimatedBackground: the animation engine of src/components/AnimatedBackground.tsx

    A shallow embedding of the engine behind the animated line field: the
    seedable gradient-noise generator ([Noise]), the lattice of points
    ([setLines]), the per-frame physics ([movePoints]), the polyline
    renderer ([moved], [drawLines]) and the throttled frame callback
    ([tick]).

    Numbers.  Two readings of a JavaScript number are used.  Where a
    statement does not turn on rounding (the tables of the generator, the
    table reads of a sample, the control flow of the frame callback, the
    clamps of the simulator), a number is an exact rational [Q] (every
    finite double is one) and decimal literals of the source such as [0.06]
    stand for the rational they denote.  Where it does turn on rounding
    (how many columns and rows [setLines] builds, the tenth at which
    [moved] issues a coordinate), the functions are modelled a second time
    on IEEE 754 binary64 values, in [Binary64] at the end, and the
    statements about them are made there.  Integer-valued numbers that the
    source pushes through bitwise operators or uses as array indices and
    loop bounds are [Z], with the 32-bit wrap-around of the bitwise
    operators written out ([JS.ToInt32]).

    Host functions.  [Math.cos], [Math.sin], [Math.hypot] and [Math.atan2]
    are provided by the host; the engine is parametrised by an
    implementation [Math] of that interface, of which only range facts are
    required.  [RefMath] is a small rational implementation on which the
    model can be run. *)

From Stdlib Require Import ZArith QArith Qround Qabs Qminmax Lia Lqa List String.
From stdpp Require Import base option list.

Local Open Scope Z_scope.

(** ** JavaScript primitives used by the source *)

Module JS.

(** ToInt32 of an integer-valued number: wrap into [-2^31, 2^31). *)
Definition ToInt32 (z : Z) : Z := (z + 2 ^ 31) mod 2 ^ 32 - 2 ^ 31.

(** [a & b], [a | b], [a ^ b], [a << k], [a >> k] on integer-valued numbers. *)
Definition bitand (a b : Z) : Z := Z.land (ToInt32 a) (ToInt32 b).
Definition bitor (a b : Z) : Z := Z.lor (ToInt32 a) (ToInt32 b).
Definition bitxor (a b : Z) : Z := Z.lxor (ToInt32 a) (ToInt32 b).
Definition shl (a k : Z) : Z := ToInt32 (Z.shiftl (ToInt32 a) (k mod 32)).
Definition sar (a k : Z) : Z := Z.shiftr (ToInt32 a) (k mod 32).

(** [a % b] on integers: the remainder takes the sign of the dividend. *)
Definition rem (a b : Z) : Z := Z.rem a b.

(** [a < b] on numbers. *)
Definition lt (a b : Q) : bool := negb (Qle_bool b a).

(** [Math.floor], [Math.ceil], [Math.round] (halves round up), [Math.min],
    [Math.max]. *)
Definition floor (q : Q) : Z := Qfloor q.
Definition ceil (q : Q) : Z := Qceiling q.
Definition round (q : Q) : Z := Qfloor (q + (1 # 2)).
Definition min (a b : Q) : Q := Qmin a b.
Definition max (a b : Q) : Q := Qmax a b.

(** An array is a list of slots; [None] is a hole, read as [undefined].
    [new Array(n)] has [n] holes. *)
Abbreviation Array A := (list (option A)) (only parsing).
Definition newArray {A} (n : nat) : Array A := replicate n None.

(** [arr[i]]: [undefined] ([None]) for a hole and outside the array. *)
Definition get {A} (arr : Array A) (i : Z) : option A :=
  if i <? 0 then None else mjoin (arr !! Z.to_nat i).

(** [arr[i] = v] for [0 <= i]: in range the slot is overwritten, beyond the
    end the array grows, leaving holes in between. *)
Definition set {A} (arr : Array A) (i : nat) (v : option A) : Array A :=
  if (i <? length arr)%nat then <[i := v]> arr
  else arr ++ replicate (i - length arr) None ++ [v].

(** The indices visited by [for (let i = lo; i < hi; i++)]. *)
Definition range (lo hi : Z) : list Z :=
  map (fun k => lo + Z.of_nat k) (seq 0 (Z.to_nat (hi - lo))).

(** The value of [Math.ceil(a / b)] in exact arithmetic: an integer when
    [b] is not zero, otherwise [Infinity], [-Infinity] or [NaN] by the sign
    of [a] (the divisors of the source are literals of [config], never
    [-0]).  [Binary64.ceil] is [Math.ceil] on doubles. *)
Inductive Bound : Type :=
| Finite (n : Z)
| PosInfinity
| NegInfinity
| NaN.

Definition ceilDiv (a b : Q) : Bound :=
  if Qeq_bool b 0 then
    (if Qeq_bool a 0 then NaN else if lt 0 a then PosInfinity else NegInfinity)
  else Finite (ceil (a / b)).

(** The indices visited by [for (let i = 0; i <= total; i++)]; [None] when
    the loop never ends ([total] is [Infinity]).  A comparison with [NaN]
    is false. *)
Definition upTo (total : Bound) : option (list Z) :=
  match total with
  | Finite n => Some (range 0 (n + 1))
  | PosInfinity => None
  | NegInfinity | NaN => Some []
  end.

End JS.

(** ** The host's [Math] object

    The four functions the source calls, with what is relied on: [cos] and
    [sin] stay within [-1, 1], and [hypot] of a zero displacement is 0. *)

Class Math : Type := {
  cos : Q -> Q;
  sin : Q -> Q;
  hypot : Q -> Q -> Q;
  atan2 : Q -> Q -> Q;
  cos_range : forall a, (-1 <= cos a <= 1)%Q;
  sin_range : forall a, (-1 <= sin a <= 1)%Q;
  hypot_zero : forall dx dy, (dx == 0 -> dy == 0 -> hypot dx dy == 0)%Q
}.

(** ** class Grad *)

Module Grad.

Record t : Type := mk { x : Q; y : Q; z : Q }.

Definition dot2 (g : t) (x0 y0 : Q) : Q := (x g * x0 + y g * y0)%Q.

End Grad.

(** ** class Noise *)

Module Noise.

Record t : Type := mk {
  grad3 : list Grad.t;
  p : list Z;
  perm : JS.Array Z;
  gradP : JS.Array Grad.t
}.

Definition grad3_init : list Grad.t :=
  [ Grad.mk 1 1 0; Grad.mk (-1) 1 0; Grad.mk 1 (-1) 0; Grad.mk (-1) (-1) 0;
    Grad.mk 1 0 1; Grad.mk (-1) 0 1; Grad.mk 1 0 (-1); Grad.mk (-1) 0 (-1);
    Grad.mk 0 1 1; Grad.mk 0 (-1) 1; Grad.mk 0 1 (-1); Grad.mk 0 (-1) (-1) ]%Q.

Definition p_init : list Z :=
  [151; 160; 137; 91; 90; 15; 131; 13; 201; 95; 96; 53; 194; 233; 7; 225; 140; 36; 103; 30;
   69; 142; 8; 99; 37; 240; 21; 10; 23; 190; 6; 148; 247; 120; 234; 75; 0; 26; 197; 62; 94; 252; 219;
   203; 117; 35; 11; 32; 57; 177; 33; 88; 237; 149; 56; 87; 174; 20; 125; 136; 171; 168; 68; 175; 74;
   165; 71; 134; 139; 48; 27; 166; 77; 146; 158; 231; 83; 111; 229; 122; 60; 211; 133; 230; 220; 105;
   92; 41; 55; 46; 245; 40; 244; 102; 143; 54; 65; 25; 63; 161; 1; 216; 80; 73; 209; 76; 132; 187; 208;
   89; 18; 169; 200; 196; 135; 130; 116; 188; 159; 86; 164; 100; 109; 198; 173; 186; 3; 64; 52; 217;
   226; 250; 124; 123; 5; 202; 38; 147; 118; 126; 255; 82; 85; 212; 207; 206; 59; 227; 47; 16; 58; 17;
   182; 189; 28; 42; 223; 183; 170; 213; 119; 248; 152; 2; 44; 154; 163; 70; 221; 153; 101; 155; 167;
   43; 172; 9; 129; 22; 39; 253; 19; 98; 108; 110; 79; 113; 224; 232; 178; 185; 112; 104; 218; 246;
   97; 228; 251; 34; 242; 193; 238; 210; 144; 12; 191; 179; 162; 241; 81; 51; 145; 235; 249; 14; 239;
   107; 49; 192; 214; 31; 181; 199; 106; 157; 184; 84; 204; 176; 115; 121; 50; 45; 127; 4; 150; 254;
   138; 236; 205; 93; 222; 114; 67; 29; 24; 72; 243; 141; 128; 195; 78; 66; 215; 61; 156; 180].

(** The value [v] computed in iteration [i] of [seed]'s loop, for the
    integer [s] that [seed] has reached after its first three lines.  A
    missing [p[i]] would be [undefined], which [^] reads as 0. *)
Definition seedValue (s : Z) (ptab : list Z) (i : Z) : Z :=
  let pi := nth (Z.to_nat i) ptab 0 in
  if negb (JS.bitand i 1 =? 0)
  then JS.bitxor pi (JS.bitand s 255)
  else JS.bitxor pi (JS.bitand (JS.sar s 8) 255).

(** [arr[i] = arr[i + 256] = v]: in a chained assignment the right-most
    target is written first. *)
Definition setBoth {A} (arr : JS.Array A) (i : Z) (v : option A) : JS.Array A :=
  JS.set (JS.set arr (Z.to_nat (i + 256)) v) (Z.to_nat i) v.

(** [grad3[k]]. *)
Definition gradient (g3 : list Grad.t) (k : Z) : option Grad.t :=
  if k <? 0 then None else g3 !! Z.to_nat k.

(** One iteration of the loop: [perm[i] = perm[i + 256] = v] and
    [gradP[i] = gradP[i + 256] = grad3[v % 12]]. *)
Definition seedStep (s : Z) (n : t) (i : Z) : t :=
  let v := seedValue s (p n) i in
  {| grad3 := grad3 n;
     p := p n;
     perm := setBoth (perm n) i (Some v);
     gradP := setBoth (gradP n) i (gradient (grad3 n) (JS.rem v 12)) |}.

(** The integer that [seed] works with: a seed strictly between 0 and 1
    is scaled by 65536, the seed is floored, and a seed below 256 is mixed
    with itself shifted by eight bits. *)
Definition seedInt (sd : Q) : Z :=
  let sd := if JS.lt 0 sd && JS.lt sd 1 then (sd * 65536)%Q else sd in
  let s := JS.floor sd in
  if s <? 256 then JS.bitor s (JS.shl s 8) else s.

Definition seed (sd : Q) (n : t) : t :=
  fold_left (seedStep (seedInt sd)) (JS.range 0 256) n.

(** [new Noise(seed)]. *)
Definition new (sd : Q) : t :=
  seed sd {| grad3 := grad3_init; p := p_init;
             perm := JS.newArray 512; gradP := JS.newArray 512 |}.

(** A generator after any history of calls to [seed]. *)
Definition reseeded (sd0 : Q) (history : list Q) : t :=
  fold_left (fun n sd => seed sd n) history (new sd0).

Definition fade (t0 : Q) : Q := (t0 * t0 * t0 * (t0 * (t0 * 6 - 15) + 10))%Q.

Definition lerp (a b t0 : Q) : Q := ((1 - t0) * a + t0 * b)%Q.

(** Array reads of [perlin2], in the order they happen. *)
Inductive Access : Type :=
| ReadPerm (i : Z)
| ReadGradP (i : Z).

(** A computation that reads the tables: it logs each read and fails
    ([None]) when a read meets [undefined], which in the source ends in a
    TypeError at [.dot2] (an [undefined] entry of [perm] makes the
    [gradP] index [NaN], and [gradP[NaN]] is [undefined] again). *)
Definition Reader (A : Type) : Type := list Access -> option (A * list Access).

Definition ret {A} (a : A) : Reader A := fun log => Some (a, log).

Definition bind {A B} (m : Reader A) (k : A -> Reader B) : Reader B :=
  fun log => match m log with
             | Some (a, log') => k a log'
             | None => None
             end.

Definition readPerm (n : t) (i : Z) : Reader Z :=
  fun log => match JS.get (perm n) i with
             | Some v => Some (v, log ++ [ReadPerm i])
             | None => None
             end.

Definition readGradP (n : t) (i : Z) : Reader Grad.t :=
  fun log => match JS.get (gradP n) i with
             | Some g => Some (g, log ++ [ReadGradP i])
             | None => None
             end.

(** The cell coordinate [X] after [X = Math.floor(x); X &= 255]. *)
Definition cell (x : Q) : Z := JS.bitand (JS.floor x) 255.

(** The in-cell coordinate [x] after [x -= X]. *)
Definition frac (x : Q) : Q := (x - inject_Z (JS.floor x))%Q.

Definition perlin2_reader (n : t) (x y : Q) : Reader Q :=
  let X := cell x in
  let Y := cell y in
  let x := frac x in
  let y := frac y in
  bind (readPerm n Y) (fun pY =>
  bind (readGradP n (X + pY)) (fun g00 =>
  let n00 := Grad.dot2 g00 x y in
  bind (readPerm n (Y + 1)) (fun pY1 =>
  bind (readGradP n (X + pY1)) (fun g01 =>
  let n01 := Grad.dot2 g01 x (y - 1) in
  bind (readPerm n Y) (fun pY' =>
  bind (readGradP n (X + 1 + pY')) (fun g10 =>
  let n10 := Grad.dot2 g10 (x - 1) y in
  bind (readPerm n (Y + 1)) (fun pY1' =>
  bind (readGradP n (X + 1 + pY1')) (fun g11 =>
  let n11 := Grad.dot2 g11 (x - 1) (y - 1) in
  let u := fade x in
  ret (lerp (lerp n00 n10 u) (lerp n01 n11 u) (fade y)))))))))).

(** [perlin2(x, y)]: the sample, or [None] for a TypeError. *)
Definition perlin2 (n : t) (x y : Q) : option Q :=
  fst <$> perlin2_reader n x y [].

End Noise.

(** ** The component's data: Point, MouseState, config *)

Module Wave.
Record t : Type := mk { x : Q; y : Q }.
End Wave.

Module Cursor.
Record t : Type := mk { x : Q; y : Q; vx : Q; vy : Q }.
End Cursor.

Module Point.
Record t : Type := mk { x : Q; y : Q; wave : Wave.t; cursor : Cursor.t }.
End Point.

Module MouseState.
Record t : Type := mk {
  x : Q; y : Q; lx : Q; ly : Q; sx : Q; sy : Q;
  v : Q; vs : Q; a : Q; set : bool
}.

(** The initial value of [mouseRef]. *)
Definition init : t :=
  {| x := -10; y := 0; lx := 0; ly := 0; sx := 0; sy := 0;
     v := 0; vs := 0; a := 0; set := false |}%Q.
End MouseState.

Module Config.
Record t : Type := mk {
  lineColor : string;
  waveSpeedX : Q; waveSpeedY : Q;
  waveAmpX : Q; waveAmpY : Q;
  friction : Q; tension : Q;
  maxCursorMove : Q;
  xGap : Q; yGap : Q;
  autoWaveIntensity : Q; autoWaveSpeed : Q
}.
End Config.

(** The [config] object of the component. *)
Definition config : Config.t :=
  {| Config.lineColor := "rgba(156, 163, 175, 0.25)";
     Config.waveSpeedX := 0.008; Config.waveSpeedY := 0.005;
     Config.waveAmpX := 20; Config.waveAmpY := 15;
     Config.friction := 0.94; Config.tension := 0.003;
     Config.maxCursorMove := 60;
     Config.xGap := 16; Config.yGap := 40;
     Config.autoWaveIntensity := 0.8; Config.autoWaveSpeed := 0.001 |}%Q.

(** The padding that [setLines] adds to the surface, per axis. *)
Definition paddingX : Q := 100.
Definition paddingY : Q := 50.

(** The minimum time between two accepted frames in [tick]. *)
Definition frameInterval : Q := 33.

(** The bounding rectangle of the container. *)
Module Rect.
Record t : Type := mk { width : Q; height : Q; left : Q; top : Q }.
End Rect.

(** The calls made on the 2-D drawing context, in order. *)
Inductive DrawCall : Type :=
| ClearRect (x y w h : Q)
| BeginPath
| SetStrokeStyle (color : string)
| SetLineWidth (w : Q)
| MoveTo (x y : Q)
| LineTo (x y : Q)
| Stroke.

(** The mutable state the effect closes over: the refs, [lastTime], and on
    the host's side the calls received by the drawing context and the next
    handle [requestAnimationFrame] will return. *)
Record Engine : Type := mkEngine {
  bounding : Rect.t;
  noise : Noise.t;
  lines : list (list Point.t);
  mouse : MouseState.t;
  frameId : option Z;
  ctx : option (list DrawCall);
  lastTime : Q;
  nextHandle : Z
}.

Definition with_lines (e : Engine) (ls : list (list Point.t)) : Engine :=
  mkEngine (bounding e) (noise e) ls (mouse e) (frameId e) (ctx e) (lastTime e) (nextHandle e).

Definition with_mouse (e : Engine) (m : MouseState.t) : Engine :=
  mkEngine (bounding e) (noise e) (lines e) m (frameId e) (ctx e) (lastTime e) (nextHandle e).

Definition with_ctx (e : Engine) (c : option (list DrawCall)) : Engine :=
  mkEngine (bounding e) (noise e) (lines e) (mouse e) (frameId e) c (lastTime e) (nextHandle e).

Definition with_lastTime (e : Engine) (t : Q) : Engine :=
  mkEngine (bounding e) (noise e) (lines e) (mouse e) (frameId e) (ctx e) t (nextHandle e).

(** [frameIdRef.current = requestAnimationFrame(tick)]. *)
Definition requestFrame (e : Engine) : Engine :=
  mkEngine (bounding e) (noise e) (lines e) (mouse e) (Some (nextHandle e)) (ctx e)
           (lastTime e) (nextHandle e + 1).

(** The state at the start of the effect, once [setSize] has read the
    container's rectangle: no grid yet, the pointer at its initial value, an
    empty drawing log, a generator seeded with [sd] (the source draws it
    from [Math.random()]). *)
Definition mounted (rect : Rect.t) (sd : Q) : Engine :=
  {| bounding := rect; noise := Noise.new sd; lines := []; mouse := MouseState.init;
     frameId := None; ctx := Some []; lastTime := 0; nextHandle := 1 |}.

(** ** The functions of the effect *)

Section Effect.

Context (cfg : Config.t) {M : Math}.

Local Open Scope Q_scope.

(** The number a loop bound stands for in arithmetic.  [setLines] builds a
    point only inside both of its loops, which run only for finite bounds;
    for the other bounds the value is never looked at. *)
Definition boundNumber (b : JS.Bound) : Q :=
  match b with
  | JS.Finite n => inject_Z n
  | _ => 0
  end.

(** The object literal pushed by the inner loop of [setLines]. *)
Definition newPoint (xStart yStart : Q) (i j : Z) : Point.t :=
  {| Point.x := xStart + Config.xGap cfg * inject_Z i;
     Point.y := yStart + Config.yGap cfg * inject_Z j;
     Point.wave := {| Wave.x := 0; Wave.y := 0 |};
     Point.cursor := {| Cursor.x := 0; Cursor.y := 0; Cursor.vx := 0; Cursor.vy := 0 |} |}.

(** [setLines()] in exact arithmetic; [None] when one of its loops never
    ends.  [Binary64.setLines] is the function on doubles. *)
Definition setLines (e : Engine) : option Engine :=
  let width := Rect.width (bounding e) in
  let height := Rect.height (bounding e) in
  let oWidth := width + paddingX in
  let oHeight := height + paddingY in
  let xGap := Config.xGap cfg in
  let yGap := Config.yGap cfg in
  let totalLines := JS.ceilDiv oWidth xGap in
  let totalPoints := JS.ceilDiv oHeight yGap in
  let xStart := (width - xGap * boundNumber totalLines) / 2 in
  let yStart := (height - yGap * boundNumber totalPoints) / 2 in
  columns ← JS.upTo totalLines;
  ls ← mapM (fun i =>
               rows ← JS.upTo totalPoints;
               Some (map (fun j => newPoint xStart yStart i j) rows)) columns;
  Some (with_lines e ls).

(** The body of the inner [forEach] of [movePoints]: one point, one frame.
    [None] when [perlin2] throws. *)
Definition movePoint (nz : Noise.t) (ms : MouseState.t) (time : Q) (p : Point.t)
  : option Point.t :=
  sample ← Noise.perlin2 nz
             ((Point.x p + time * Config.waveSpeedX cfg) * 0.001)
             ((Point.y p + time * Config.waveSpeedY cfg) * 0.001);
  let baseMove := sample * 8 in
  let autoWaveX :=
    sin (time * Config.autoWaveSpeed cfg + Point.x p * 0.005) * Config.autoWaveIntensity cfg in
  let autoWaveY :=
    cos (time * Config.autoWaveSpeed cfg + Point.y p * 0.005) * Config.autoWaveIntensity cfg in
  let wave := {| Wave.x := cos baseMove * Config.waveAmpX cfg + autoWaveX;
                 Wave.y := sin baseMove * Config.waveAmpY cfg + autoWaveY |} in
  let c := Point.cursor p in
  let dx := Point.x p - MouseState.sx ms in
  let dy := Point.y p - MouseState.sy ms in
  let dist := hypot dx dy in
  let l := JS.max 120 (MouseState.vs ms) in
  let '(vx, vy) :=
    if JS.lt dist l then
      let s := 1 - dist / l in
      let f := cos (dist * 0.005) * s in
      (Cursor.vx c + cos (MouseState.a ms) * f * l * MouseState.vs ms * 0.0003,
       Cursor.vy c + sin (MouseState.a ms) * f * l * MouseState.vs ms * 0.0003)
    else (Cursor.vx c, Cursor.vy c) in
  let vx := vx + (0 - Cursor.x c) * Config.tension cfg in
  let vy := vy + (0 - Cursor.y c) * Config.tension cfg in
  let vx := vx * Config.friction cfg in
  let vy := vy * Config.friction cfg in
  let cx := Cursor.x c + vx in
  let cy := Cursor.y c + vy in
  let cx := JS.min (Config.maxCursorMove cfg) (JS.max (- Config.maxCursorMove cfg) cx) in
  let cy := JS.min (Config.maxCursorMove cfg) (JS.max (- Config.maxCursorMove cfg) cy) in
  Some {| Point.x := Point.x p; Point.y := Point.y p; Point.wave := wave;
          Point.cursor := {| Cursor.x := cx; Cursor.y := cy;
                             Cursor.vx := vx; Cursor.vy := vy |} |}.

(** The two nested [forEach] of [movePoints] over a grid. *)
Definition moveGrid (nz : Noise.t) (ms : MouseState.t) (time : Q)
    (ls : list (list Point.t)) : option (list (list Point.t)) :=
  mapM (mapM (movePoint nz ms time)) ls.

(** [movePoints(time)]. *)
Definition movePoints (time : Q) (e : Engine) : option Engine :=
  ls ← moveGrid (noise e) (mouse e) time (lines e);
  Some (with_lines e ls).

(** [Math.round(x * 10) / 10] in exact arithmetic; [Binary64.round1] is
    the function on doubles. *)
Definition round1 (x : Q) : Q := inject_Z (JS.round (x * 10)) / 10.

(** [moved(point, withCursor)]. *)
Definition moved (point : Point.t) (withCursor : bool) : Wave.t :=
  let x := Point.x point + Wave.x (Point.wave point)
           + (if withCursor then Cursor.x (Point.cursor point) else 0) in
  let y := Point.y point + Wave.y (Point.wave point)
           + (if withCursor then Cursor.y (Point.cursor point) else 0) in
  {| Wave.x := round1 x; Wave.y := round1 y |}.

(** The body of the inner [forEach] of [drawLines]: the calls made for the
    point [p] at index [idx] of [points]. *)
Definition drawPoint (points : list Point.t) (idx : nat) (p : Point.t) : list DrawCall :=
  let isLast := (idx =? length points - 1)%nat in
  let p1 := moved p (negb isLast) in
  LineTo (Wave.x p1) (Wave.y p1) ::
  (if isLast then
     match points !! (length points - 1)%nat with
     | Some q => let p2 := moved q (negb isLast) in [MoveTo (Wave.x p2) (Wave.y p2)]
     | None => []
     end
   else []).

(** The body of the outer [forEach] of [drawLines]: the calls made for one
    column. *)
Definition drawColumn (points : list Point.t) : list DrawCall :=
  match points with
  | [] => []
  | p0 :: _ =>
      let p1 := moved p0 false in
      MoveTo (Wave.x p1) (Wave.y p1) :: concat (imap (drawPoint points) points)
  end.

(** [drawLines()]. *)
Definition drawLines (e : Engine) : Engine :=
  match ctx e with
  | None => e
  | Some calls =>
      let calls := calls ++ [ClearRect 0 0 (Rect.width (bounding e)) (Rect.height (bounding e));
                             BeginPath;
                             SetStrokeStyle (Config.lineColor cfg);
                             SetLineWidth 1] in
      let calls := fold_left (fun cs points => cs ++ drawColumn points) (lines e) calls in
      with_ctx e (Some (calls ++ [Stroke]))
  end.

(** The pointer update at the head of an accepted frame of [tick]. *)
Definition advance (m : MouseState.t) : MouseState.t :=
  let sx := MouseState.sx m + (MouseState.x m - MouseState.sx m) * 0.06 in
  let sy := MouseState.sy m + (MouseState.y m - MouseState.sy m) * 0.06 in
  let dx := MouseState.x m - MouseState.lx m in
  let dy := MouseState.y m - MouseState.ly m in
  let d := hypot dx dy in
  let vs := MouseState.vs m + (d - MouseState.vs m) * 0.06 in
  let vs := JS.min 60 vs in
  {| MouseState.x := MouseState.x m; MouseState.y := MouseState.y m;
     MouseState.lx := MouseState.x m; MouseState.ly := MouseState.y m;
     MouseState.sx := sx; MouseState.sy := sy;
     MouseState.v := d; MouseState.vs := vs;
     MouseState.a := atan2 dy dx;
     MouseState.set := MouseState.set m |}.

(** [tick(t)]; [None] when [movePoints] throws. *)
Definition tick (t : Q) (e : Engine) : option Engine :=
  if JS.lt (t - lastTime e) frameInterval then Some (requestFrame e)
  else
    let e := with_lastTime e t in
    let e := with_mouse e (advance (mouse e)) in
    e ← movePoints t e;
    let e := drawLines e in
    Some (requestFrame e).

(** [updateMouse(x, y)]. *)
Definition updateMouse (x y : Q) (e : Engine) : Engine :=
  let b := bounding e in
  let m := mouse e in
  let mx := x - Rect.left b in
  let my := y - Rect.top b in
  with_mouse e
    (if MouseState.set m then
       {| MouseState.x := mx; MouseState.y := my;
          MouseState.lx := MouseState.lx m; MouseState.ly := MouseState.ly m;
          MouseState.sx := MouseState.sx m; MouseState.sy := MouseState.sy m;
          MouseState.v := MouseState.v m; MouseState.vs := MouseState.vs m;
          MouseState.a := MouseState.a m; MouseState.set := true |}
     else
       {| MouseState.x := mx; MouseState.y := my;
          MouseState.lx := mx; MouseState.ly := my;
          MouseState.sx := mx; MouseState.sy := my;
          MouseState.v := MouseState.v m; MouseState.vs := MouseState.vs m;
          MouseState.a := MouseState.a m; MouseState.set := true |}).

(** The grid after a run of simulator steps, each with its own time and
    pointer state. *)
Definition simulate (nz : Noise.t) (steps : list (Q * MouseState.t))
    (ls : list (list Point.t)) : option (list (list Point.t)) :=
  foldl (fun acc step => ls' ← acc; moveGrid nz (snd step) (fst step) ls') (Some ls) steps.

End Effect.

(** ** A rational implementation of the host functions

    Coarse but total: truncated series, on the argument cut to a multiple
    of 1/4096 and with the result clamped to [-1, 1], for the cosine and
    sine; an integer square root for [hypot] (exact on perfect squares); a
    rational fit of the arc tangent. *)

Definition clampUnit (q : Q) : Q := Qmax (-1) (Qmin 1 q).

Definition cutArgument (a : Q) : Q := Qfloor (a * 4096) # 4096.

Definition refCos (a : Q) : Q :=
  let a := cutArgument a in
  clampUnit (1 - a * a / 2 + a * a * a * a / 24 - a * a * a * a * a * a / 720)%Q.

Definition refSin (a : Q) : Q :=
  let a := cutArgument a in
  clampUnit (a - a * a * a / 6 + a * a * a * a * a / 120)%Q.

Definition refHypot (dx dy : Q) : Q :=
  let s := Qred (dx * dx + dy * dy) in
  Z.sqrt (Qnum s * Z.pos (Qden s)) # Qden s.

Definition refPi : Q := 355 # 113.

Definition refAtan (z : Q) : Q :=
  if Qle_bool (Qabs z) 1 then (z / (1 + 0.28 * z * z))%Q
  else ((if Qle_bool 0 z then refPi / 2 else - refPi / 2) - z / (z * z + 0.28))%Q.

Definition refAtan2 (dy dx : Q) : Q :=
  if JS.lt 0 dx then refAtan (dy / dx)
  else if JS.lt dx 0 then
    (if Qle_bool 0 dy then refAtan (dy / dx) + refPi else refAtan (dy / dx) - refPi)%Q
  else if JS.lt 0 dy then (refPi / 2)%Q
  else if JS.lt dy 0 then (- refPi / 2)%Q
  else 0%Q.

(** ** The rational host functions meet the interface *)

Lemma clampUnit_range (q : Q) : (-1 <= clampUnit q <= 1)%Q.
Proof.
  unfold clampUnit. split.
  - apply Q.le_max_l.
  - apply Q.max_lub; [ discriminate | apply Q.le_min_l ].
Qed.

Lemma refHypot_zero (dx dy : Q) : (dx == 0 -> dy == 0 -> refHypot dx dy == 0)%Q.
Proof.
  intros Hx Hy. unfold refHypot.
  assert (Hs : Qred (dx * dx + dy * dy) = Qred 0).
  { apply Qred_complete. rewrite Hx, Hy. reflexivity. }
  rewrite Hs. reflexivity.
Qed.

Definition RefMath : Math :=
  {| cos := refCos; sin := refSin; hypot := refHypot; atan2 := refAtan2;
     cos_range := fun a => clampUnit_range _;
     sin_range := fun a => clampUnit_range _;
     hypot_zero := refHypot_zero |}.

(** ** Predicates used in the statements *)

(** The tables are those of a generator that went through [seed]. *)
Definition wellFormed (n : Noise.t) : Prop :=
  Noise.grad3 n = Noise.grad3_init /\ Noise.p n = Noise.p_init /\
  length (Noise.perm n) = 512%nat /\ length (Noise.gradP n) = 512%nat.

(** Every slot of both 512-entry tables is filled, [perm] with bytes. *)
Definition tablesFull (n : Noise.t) : Prop :=
  forall i, 0 <= i < 512 ->
    (exists v, JS.get (Noise.perm n) i = Some v /\ 0 <= v <= 255) /\
    (exists g, JS.get (Noise.gradP n) i = Some g).

(** The sample [perlin2] computes from the four corner gradients. *)
Definition blend (g00 g01 g10 g11 : Grad.t) (fx fy : Q) : Q :=
  Noise.lerp
    (Noise.lerp (Grad.dot2 g00 fx fy) (Grad.dot2 g10 (fx - 1) fy) (Noise.fade fx))
    (Noise.lerp (Grad.dot2 g01 fx (fy - 1)) (Grad.dot2 g11 (fx - 1) (fy - 1)) (Noise.fade fx))
    (Noise.fade fy).

(** A table read within bounds: [perm] at an index in 0..256, [gradP] at
    an index in 0..511. *)
Definition accessInBounds (a : Noise.Access) : Prop :=
  match a with
  | Noise.ReadPerm i => 0 <= i <= 256
  | Noise.ReadGradP i => 0 <= i <= 511
  end.

(** The bounds on a point after a simulator step. *)
Definition cursorClamped (cfg : Config.t) (p : Point.t) : Prop :=
  (Qabs (Cursor.x (Point.cursor p)) <= Config.maxCursorMove cfg /\
   Qabs (Cursor.y (Point.cursor p)) <= Config.maxCursorMove cfg)%Q.

Definition waveBounded (cfg : Config.t) (p : Point.t) : Prop :=
  (Qabs (Wave.x (Point.wave p)) <= Config.waveAmpX cfg + Config.autoWaveIntensity cfg /\
   Qabs (Wave.y (Point.wave p)) <= Config.waveAmpY cfg + Config.autoWaveIntensity cfg)%Q.

(** * Properties *)

(** ** Bitwise facts *)

Lemma ToInt32_small (z : Z) : - 2 ^ 31 <= z < 2 ^ 31 -> JS.ToInt32 z = z.
Proof.
  intros Hz. unfold JS.ToInt32. rewrite Z.mod_small; lia.
Qed.

Lemma land_255_mod (z : Z) : Z.land z 255 = z mod 256.
Proof.
  change 255 with (Z.ones 8). rewrite Z.land_ones by lia. reflexivity.
Qed.

Lemma bitand_255_range (a : Z) : 0 <= JS.bitand a 255 <= 255.
Proof.
  unfold JS.bitand. rewrite (ToInt32_small 255) by lia.
  rewrite land_255_mod.
  pose proof (Z.mod_pos_bound (JS.ToInt32 a) 256). lia.
Qed.

Lemma lxor_byte (a b : Z) :
  0 <= a <= 255 -> 0 <= b <= 255 -> 0 <= Z.lxor a b <= 255.
Proof.
  intros Ha Hb.
  assert (Hhigh : forall c n, 0 <= c <= 255 -> 8 <= n -> Z.testbit c n = false).
  { intros c n Hc Hn. rewrite <- (Z.mod_small c (2 ^ 8)) by lia.
    apply Z.mod_pow2_bits_high; lia. }
  assert (Hm : Z.lxor a b = Z.lxor a b mod 2 ^ 8).
  { apply Z.bits_inj'. intros n Hn.
    destruct (Z.lt_ge_cases n 8) as [Hlt | Hge].
    - rewrite Z.mod_pow2_bits_low by lia. reflexivity.
    - rewrite Z.mod_pow2_bits_high by lia.
      rewrite Z.lxor_spec, !Hhigh by lia. reflexivity. }
  pose proof (Z.mod_pos_bound (Z.lxor a b) (2 ^ 8)). lia.
Qed.

Lemma bitxor_byte (a b : Z) :
  0 <= a <= 255 -> 0 <= b <= 255 -> 0 <= JS.bitxor a b <= 255.
Proof.
  intros Ha Hb. unfold JS.bitxor.
  rewrite !ToInt32_small by lia. apply lxor_byte; assumption.
Qed.

Lemma p_init_byte (i : nat) : 0 <= nth i Noise.p_init 0 <= 255.
Proof.
  assert (Hall : Forall (fun z => 0 <= z <= 255) Noise.p_init).
  { apply Forall_forall. intros z Hz.
    assert (Hb : forallb (fun z => (0 <=? z) && (z <=? 255)) Noise.p_init = true)
      by (vm_compute; reflexivity).
    rewrite forallb_forall in Hb. apply list_elem_of_In in Hz.
    specialize (Hb z Hz). lia. }
  destruct (Nat.lt_ge_cases i (length Noise.p_init)) as [Hlt | Hge].
  - rewrite Forall_forall in Hall. apply Hall.
    apply list_elem_of_In. apply nth_In. exact Hlt.
  - rewrite nth_overflow by exact Hge. lia.
Qed.

Lemma seedValue_byte (s i : Z) : 0 <= Noise.seedValue s Noise.p_init i <= 255.
Proof.
  unfold Noise.seedValue.
  destruct (negb _); apply bitxor_byte;
    auto using p_init_byte, bitand_255_range.
Qed.

(** ** The loop of [seed] fills both tables *)

Lemma range_elem (lo hi i : Z) : i ∈ JS.range lo hi <-> lo <= i < hi.
Proof.
  unfold JS.range. rewrite list_elem_of_In, in_map_iff. split.
  - intros (k & <- & Hk). apply in_seq in Hk. lia.
  - intros Hi. exists (Z.to_nat (i - lo)). split; [ lia | ].
    apply in_seq. lia.
Qed.

Section Tables.

Context {A : Type}.
Implicit Types (arr : JS.Array A) (v : option A) (val : Z -> option A).

Lemma setBoth_length arr i v :
  length arr = 512%nat -> 0 <= i < 256 ->
  length (Noise.setBoth arr i v) = 512%nat.
Proof.
  intros Hlen Hi. unfold Noise.setBoth, JS.set.
  assert (H1 : (Z.to_nat (i + 256) <? length arr)%nat = true)
    by (apply Nat.ltb_lt; lia).
  rewrite H1.
  assert (H2 : (Z.to_nat i <? length (<[Z.to_nat (i + 256) := v]> arr))%nat = true)
    by (apply Nat.ltb_lt; rewrite length_insert; lia).
  rewrite H2, !length_insert. exact Hlen.
Qed.

Lemma setBoth_lookup arr i v (j : nat) :
  length arr = 512%nat -> 0 <= i < 256 -> (j < 512)%nat ->
  Noise.setBoth arr i v !! j =
    if decide (Z.of_nat j mod 256 = i) then Some v else arr !! j.
Proof.
  intros Hlen Hi Hj. unfold Noise.setBoth, JS.set.
  assert (H1 : (Z.to_nat (i + 256) <? length arr)%nat = true)
    by (apply Nat.ltb_lt; lia).
  rewrite H1.
  assert (H2 : (Z.to_nat i <? length (<[Z.to_nat (i + 256) := v]> arr))%nat = true)
    by (apply Nat.ltb_lt; rewrite length_insert; lia).
  rewrite H2.
  destruct (decide (Z.of_nat j mod 256 = i)) as [Heq | Hne].
  - destruct (decide (j = Z.to_nat i)) as [-> | Hji].
    + apply list_lookup_insert_eq. rewrite length_insert. lia.
    + assert (Hj' : j = Z.to_nat (i + 256)).
      { destruct (Z.lt_ge_cases (Z.of_nat j) 256) as [Hlt | Hge].
        - rewrite Z.mod_small in Heq by lia. lia.
        - assert (Hm : Z.of_nat j mod 256 = Z.of_nat j - 256).
          { symmetry. apply (Z.mod_unique_pos _ _ 1); lia. }
          lia. }
      rewrite list_lookup_insert_ne by congruence.
      subst j. apply list_lookup_insert_eq. lia.
  - assert (Hji : Z.to_nat i <> j).
    { intros <-. apply Hne. rewrite Z.mod_small; lia. }
    assert (Hji' : Z.to_nat (i + 256) <> j).
    { intros <-. apply Hne. symmetry. apply (Z.mod_unique_pos _ _ 1); lia. }
    rewrite !list_lookup_insert_ne by assumption. reflexivity.
Qed.

Lemma fold_setBoth_length val (idx : list Z) arr :
  length arr = 512%nat -> Forall (fun i => 0 <= i < 256) idx ->
  length (fold_left (fun a i => Noise.setBoth a i (val i)) idx arr) = 512%nat.
Proof.
  intros Hlen Hidx. revert arr Hlen.
  induction Hidx as [ | i idx Hi _ IH ]; intros arr Hlen; simpl.
  - exact Hlen.
  - apply IH. apply setBoth_length; assumption.
Qed.

Lemma fold_setBoth_lookup val (idx : list Z) arr (j : nat) :
  length arr = 512%nat -> Forall (fun i => 0 <= i < 256) idx -> (j < 512)%nat ->
  fold_left (fun a i => Noise.setBoth a i (val i)) idx arr !! j =
    if decide (Z.of_nat j mod 256 ∈ idx)
    then Some (val (Z.of_nat j mod 256))
    else arr !! j.
Proof.
  intros Hlen Hidx Hj. revert arr Hlen.
  induction Hidx as [ | i idx Hi _ IH ]; intros arr Hlen; simpl.
  - destruct (decide (Z.of_nat j mod 256 ∈ @nil Z)) as [Hin | _];
      [ inversion Hin | reflexivity ].
  - rewrite IH by (apply setBoth_length; assumption).
    rewrite setBoth_lookup by assumption.
    destruct (decide (Z.of_nat j mod 256 ∈ idx)) as [Hin | Hnin].
    + rewrite decide_True by (right; exact Hin). reflexivity.
    + destruct (decide (Z.of_nat j mod 256 = i)) as [Heq | Hne].
      * rewrite decide_True by (rewrite Heq; left). rewrite Heq. reflexivity.
      * rewrite decide_False; [ reflexivity | ].
        intros Hin. apply elem_of_cons in Hin. tauto.
Qed.

End Tables.

Lemma seed_fold_fields (s : Z) (idx : list Z) (n : Noise.t) :
  Noise.grad3 (fold_left (Noise.seedStep s) idx n) = Noise.grad3 n /\
  Noise.p (fold_left (Noise.seedStep s) idx n) = Noise.p n /\
  Noise.perm (fold_left (Noise.seedStep s) idx n) =
    fold_left (fun a i => Noise.setBoth a i (Some (Noise.seedValue s (Noise.p n) i)))
              idx (Noise.perm n) /\
  Noise.gradP (fold_left (Noise.seedStep s) idx n) =
    fold_left (fun a i => Noise.setBoth a i
                 (Noise.gradient (Noise.grad3 n) (JS.rem (Noise.seedValue s (Noise.p n) i) 12)))
              idx (Noise.gradP n).
Proof.
  revert n. induction idx as [ | i idx IH ]; intros n; simpl.
  - repeat split.
  - destruct (IH (Noise.seedStep s n i)) as (H1 & H2 & H3 & H4).
    rewrite H1, H2, H3, H4. repeat split.
Qed.

Lemma range_256_forall : Forall (fun i => 0 <= i < 256) (JS.range 0 256).
Proof. apply Forall_forall. intros i Hi. apply range_elem in Hi. exact Hi. Qed.

Lemma seed_wellFormed (sd : Q) (n : Noise.t) : wellFormed n -> wellFormed (Noise.seed sd n).
Proof.
  intros (Hg & Hp & Hl1 & Hl2). unfold Noise.seed.
  destruct (seed_fold_fields (Noise.seedInt sd) (JS.range 0 256) n) as (H1 & H2 & H3 & H4).
  unfold wellFormed. rewrite H1, H2, H3, H4.
  repeat split; try assumption;
    apply fold_setBoth_length; auto using range_256_forall.
Qed.

Lemma seed_perm_lookup (sd : Q) (n : Noise.t) (j : nat) :
  wellFormed n -> (j < 512)%nat ->
  Noise.perm (Noise.seed sd n) !! j =
    Some (Some (Noise.seedValue (Noise.seedInt sd) Noise.p_init (Z.of_nat j mod 256))).
Proof.
  intros (Hg & Hp & Hl1 & Hl2) Hj. unfold Noise.seed.
  destruct (seed_fold_fields (Noise.seedInt sd) (JS.range 0 256) n) as (_ & _ & H3 & _).
  rewrite H3, fold_setBoth_lookup by auto using range_256_forall.
  rewrite decide_True, Hp; [ reflexivity | ].
  apply range_elem. pose proof (Z.mod_pos_bound (Z.of_nat j) 256). lia.
Qed.

Lemma seed_gradP_lookup (sd : Q) (n : Noise.t) (j : nat) :
  wellFormed n -> (j < 512)%nat ->
  Noise.gradP (Noise.seed sd n) !! j =
    Some (Noise.gradient Noise.grad3_init
            (JS.rem (Noise.seedValue (Noise.seedInt sd) Noise.p_init (Z.of_nat j mod 256)) 12)).
Proof.
  intros (Hg & Hp & Hl1 & Hl2) Hj. unfold Noise.seed.
  destruct (seed_fold_fields (Noise.seedInt sd) (JS.range 0 256) n) as (_ & _ & _ & H4).
  rewrite H4, fold_setBoth_lookup by auto using range_256_forall.
  rewrite decide_True, Hp, Hg; [ reflexivity | ].
  apply range_elem. pose proof (Z.mod_pos_bound (Z.of_nat j) 256). lia.
Qed.

(** From here on [seed] is used through the lemmas above only. *)
#[global] Opaque Noise.seed.

Lemma fresh_wellFormed :
  wellFormed {| Noise.grad3 := Noise.grad3_init; Noise.p := Noise.p_init;
                Noise.perm := JS.newArray 512; Noise.gradP := JS.newArray 512 |}.
Proof.
  unfold wellFormed, JS.newArray.
  cbn [Noise.grad3 Noise.p Noise.perm Noise.gradP].
  rewrite !length_replicate. repeat split.
Qed.

Lemma new_wellFormed (sd : Q) : wellFormed (Noise.new sd).
Proof. unfold Noise.new. apply seed_wellFormed. exact fresh_wellFormed. Qed.

Lemma noise_eq (n1 n2 : Noise.t) :
  Noise.grad3 n1 = Noise.grad3 n2 -> Noise.p n1 = Noise.p n2 ->
  Noise.perm n1 = Noise.perm n2 -> Noise.gradP n1 = Noise.gradP n2 -> n1 = n2.
Proof.
  destruct n1, n2; cbn [Noise.grad3 Noise.p Noise.perm Noise.gradP].
  intros -> -> -> ->. reflexivity.
Qed.

(** [seed] replaces the whole state: whatever the tables held before, the
    generator is the one [new Noise(sd)] builds. *)
Lemma seed_replaces (sd : Q) (n : Noise.t) : wellFormed n -> Noise.seed sd n = Noise.new sd.
Proof.
  intros Hn.
  pose proof (seed_wellFormed sd n Hn) as (Hg & Hp & Hl1 & Hl2).
  pose proof (new_wellFormed sd) as (Hg' & Hp' & Hl1' & Hl2').
  assert (Hperm : Noise.perm (Noise.seed sd n) = Noise.perm (Noise.new sd)).
  { apply list_eq. intros j. destruct (Nat.lt_ge_cases j 512) as [Hlt | Hge].
    - unfold Noise.new.
      rewrite (seed_perm_lookup sd n j Hn Hlt).
      rewrite (seed_perm_lookup sd _ j fresh_wellFormed Hlt). reflexivity.
    - rewrite !lookup_ge_None_2 by lia. reflexivity. }
  assert (Hgrad : Noise.gradP (Noise.seed sd n) = Noise.gradP (Noise.new sd)).
  { apply list_eq. intros j. destruct (Nat.lt_ge_cases j 512) as [Hlt | Hge].
    - unfold Noise.new.
      rewrite (seed_gradP_lookup sd n j Hn Hlt).
      rewrite (seed_gradP_lookup sd _ j fresh_wellFormed Hlt). reflexivity.
    - rewrite !lookup_ge_None_2 by lia. reflexivity. }
  apply noise_eq; congruence.
Qed.

Lemma fold_left_preserves {A B : Type} (P : A -> Prop) (f : A -> B -> A)
    (l : list B) (a : A) :
  (forall a b, P a -> P (f a b)) -> P a -> P (fold_left f l a).
Proof.
  intros Hstep. revert a. induction l as [ | b l IH ]; intros a Ha; simpl.
  - exact Ha.
  - apply IH, Hstep, Ha.
Qed.

Lemma reseeded_wellFormed (sd0 : Q) (history : list Q) :
  wellFormed (Noise.reseeded sd0 history).
Proof.
  unfold Noise.reseeded. apply (fold_left_preserves wellFormed).
  - intros n sd Hn. apply seed_wellFormed, Hn.
  - apply new_wellFormed.
Qed.

Lemma reseeded_new (sd0 : Q) (history : list Q) :
  exists sd, Noise.reseeded sd0 history = Noise.new sd.
Proof.
  unfold Noise.reseeded.
  apply (fold_left_preserves (fun n => exists sd, n = Noise.new sd)).
  - intros n sd (sd' & ->). exists sd. apply seed_replaces, new_wellFormed.
  - exists sd0. reflexivity.
Qed.

(** ** [perlin2] on seeded tables *)

Lemma gradient_byte (v : Z) :
  0 <= v <= 255 -> is_Some (Noise.gradient Noise.grad3_init (JS.rem v 12)).
Proof.
  intros Hv. unfold Noise.gradient, JS.rem.
  pose proof (Z.rem_bound_pos v 12 ltac:(lia) ltac:(lia)) as Hr.
  destruct (Z.ltb_spec (Z.rem v 12) 0) as [Hneg | _]; [ lia | ].
  apply lookup_lt_is_Some.
  change (length Noise.grad3_init) with 12%nat. lia.
Qed.

Lemma new_tablesFull (sd : Q) : tablesFull (Noise.new sd).
Proof.
  intros i Hi. unfold Noise.new, JS.get.
  destruct (Z.ltb_spec i 0) as [Hneg | _]; [ lia | ].
  rewrite (seed_perm_lookup sd _ (Z.to_nat i) fresh_wellFormed) by lia.
  rewrite (seed_gradP_lookup sd _ (Z.to_nat i) fresh_wellFormed) by lia.
  split.
  - eexists. split; [ reflexivity | apply seedValue_byte ].
  - destruct (gradient_byte _ (seedValue_byte (Noise.seedInt sd)
                                 (Z.of_nat (Z.to_nat i) mod 256))) as [g Hg].
    exists g. rewrite Hg. reflexivity.
Qed.

Lemma reseeded_tablesFull (sd0 : Q) (history : list Q) :
  tablesFull (Noise.reseeded sd0 history).
Proof.
  destruct (reseeded_new sd0 history) as [sd ->]. apply new_tablesFull.
Qed.

Lemma cell_range (x : Q) : 0 <= Noise.cell x <= 255.
Proof. apply bitand_255_range. Qed.

(** On full tables [perlin2] succeeds after exactly eight reads, at indices
    fixed by the two cell coordinates and the two bytes read from [perm]. *)
Lemma perlin2_reader_full (n : Noise.t) (x y : Q) (log : list Noise.Access) :
  tablesFull n ->
  exists pY pY1 g00 g01 g10 g11,
    0 <= pY <= 255 /\ 0 <= pY1 <= 255 /\
    Noise.perlin2_reader n x y log =
      Some (blend g00 g01 g10 g11 (Noise.frac x) (Noise.frac y),
            log ++ [Noise.ReadPerm (Noise.cell y);
                    Noise.ReadGradP (Noise.cell x + pY);
                    Noise.ReadPerm (Noise.cell y + 1);
                    Noise.ReadGradP (Noise.cell x + pY1);
                    Noise.ReadPerm (Noise.cell y);
                    Noise.ReadGradP (Noise.cell x + 1 + pY);
                    Noise.ReadPerm (Noise.cell y + 1);
                    Noise.ReadGradP (Noise.cell x + 1 + pY1)]).
Proof.
  intros Hfull.
  pose proof (cell_range x) as HX. pose proof (cell_range y) as HY.
  destruct (Hfull (Noise.cell y) ltac:(lia)) as [(pY & HpY & HbY) _].
  destruct (Hfull (Noise.cell y + 1) ltac:(lia)) as [(pY1 & HpY1 & HbY1) _].
  destruct (Hfull (Noise.cell x + pY) ltac:(lia)) as [_ (g00 & Hg00)].
  destruct (Hfull (Noise.cell x + pY1) ltac:(lia)) as [_ (g01 & Hg01)].
  destruct (Hfull (Noise.cell x + 1 + pY) ltac:(lia)) as [_ (g10 & Hg10)].
  destruct (Hfull (Noise.cell x + 1 + pY1) ltac:(lia)) as [_ (g11 & Hg11)].
  exists pY, pY1, g00, g01, g10, g11. split; [ exact HbY | ]. split; [ exact HbY1 | ].
  unfold Noise.perlin2_reader, Noise.bind, Noise.readPerm, Noise.readGradP, Noise.ret.
  cbv beta zeta.
  rewrite HpY; cbv beta iota. rewrite Hg00; cbv beta iota.
  rewrite HpY1; cbv beta iota. rewrite Hg01; cbv beta iota.
  rewrite Hg10; cbv beta iota. rewrite Hg11; cbv beta iota.
  unfold blend. rewrite <- !app_assoc. reflexivity.
Qed.

Lemma perlin2_full (n : Noise.t) (x y : Q) :
  tablesFull n ->
  exists g00 g01 g10 g11,
    Noise.perlin2 n x y = Some (blend g00 g01 g10 g11 (Noise.frac x) (Noise.frac y)).
Proof.
  intros Hfull.
  destruct (perlin2_reader_full n x y [] Hfull)
    as (pY & pY1 & g00 & g01 & g10 & g11 & _ & _ & Hrun).
  exists g00, g01, g10, g11. unfold Noise.perlin2. rewrite Hrun. reflexivity.
Qed.

Lemma frac_integer (x : Q) (k : Z) : (x == inject_Z k -> Noise.frac x == 0)%Q.
Proof.
  intros Hx. unfold Noise.frac, JS.floor.
  rewrite (Qfloor_comp _ _ Hx), Qfloor_Z, Hx. ring.
Qed.

Lemma blend_corner (g00 g01 g10 g11 : Grad.t) (fx fy : Q) :
  (fx == 0 -> fy == 0 -> blend g00 g01 g10 g11 fx fy == 0)%Q.
Proof.
  intros Hx Hy. unfold blend, Noise.lerp, Noise.fade, Grad.dot2.
  rewrite Hx, Hy. ring.
Qed.

(** C4.  On every generator an engine can hold (built by [new Noise] and
    reseeded any number of times), the sample at an integer-aligned point
    [(x, y)] is 0: [perlin2] returns a number, and that number is zero. *)
Theorem perlin2_integer_aligned (sd0 : Q) (history : list Q) (x y : Q) (X Y : Z) :
  (x == inject_Z X)%Q -> (y == inject_Z Y)%Q ->
  exists r, Noise.perlin2 (Noise.reseeded sd0 history) x y = Some r /\ (r == 0)%Q.
Proof.
  intros Hx Hy.
  destruct (perlin2_full _ x y (reseeded_tablesFull sd0 history))
    as (g00 & g01 & g10 & g11 & Hrun).
  eexists. split; [ exact Hrun | ].
  apply blend_corner; [ apply (frac_integer x X Hx) | apply (frac_integer y Y Hy) ].
Qed.

Lemma perlin2_integer_aligned_witness :
  (3 == inject_Z 3)%Q /\ (-7 == inject_Z (-7))%Q /\
  exists r, Noise.perlin2 (Noise.reseeded (1 # 3) [0%Q; 42%Q]) 3 (-7) = Some r /\ (r == 0)%Q.
Proof.
  split; [ reflexivity | ]. split; [ reflexivity | ].
  apply (perlin2_integer_aligned (1 # 3) [0%Q; 42%Q] 3 (-7) 3 (-7)); reflexivity.
Defined.

Lemma iter_preserves {A : Type} (P : A -> Prop) (f : A -> A) (k : nat) (a : A) :
  (forall a, P a -> P (f a)) -> P a -> P (Nat.iter k f a).
Proof.
  intros Hstep Ha. induction k as [ | k IH ]; simpl; [ exact Ha | apply Hstep, IH ].
Qed.

Lemma iter_succ {A : Type} (f : A -> A) (k : nat) (a : A) :
  Nat.iter (S k) f a = f (Nat.iter k f a).
Proof. reflexivity. Qed.

Lemma seed_repeated (s : Q) (k : nat) (n : Noise.t) :
  wellFormed n -> Nat.iter (S k) (Noise.seed s) n = Noise.new s.
Proof.
  intros Hn. rewrite iter_succ. apply seed_replaces.
  apply iter_preserves; [ intros a Ha; apply seed_wellFormed, Ha | exact Hn ].
Qed.

(** Whatever a generator's two tables hold: [grad3] and [p] are assigned by
    the constructor only and the tables are created with 512 slots, so
    every [Noise] object is [wellFormed]; the seeded slots are these. *)
Lemma seed_perm_get (sd : Q) (n : Noise.t) (i : Z) :
  wellFormed n -> 0 <= i < 512 ->
  JS.get (Noise.perm (Noise.seed sd n)) i
  = Some (Noise.seedValue (Noise.seedInt sd) Noise.p_init (i mod 256)).
Proof.
  intros Hn Hi. unfold JS.get.
  destruct (Z.ltb_spec i 0) as [Hneg | _]; [ lia | ].
  rewrite (seed_perm_lookup sd n (Z.to_nat i) Hn) by lia.
  rewrite Z2Nat.id by lia. reflexivity.
Qed.

Lemma seed_gradP_get (sd : Q) (n : Noise.t) (i : Z) :
  wellFormed n -> 0 <= i < 512 ->
  JS.get (Noise.gradP (Noise.seed sd n)) i
  = Noise.gradient Noise.grad3_init
      (JS.rem (Noise.seedValue (Noise.seedInt sd) Noise.p_init (i mod 256)) 12).
Proof.
  intros Hn Hi. unfold JS.get.
  destruct (Z.ltb_spec i 0) as [Hneg | _]; [ lia | ].
  rewrite (seed_gradP_lookup sd n (Z.to_nat i) Hn) by lia.
  rewrite Z2Nat.id by lia. reflexivity.
Qed.

(** C5.  Seeding with [s] replaces the whole table state and is idempotent.
    Take two generators [n1] and [n2] whose tables [perm] and [gradP] hold
    anything at all (512 slots each, filled, partly filled or empty; [grad3]
    and [p] as the constructor assigns them).  After [seed(s)] the two are
    the same generator; every one of the 512 slots of [perm] holds the byte
    the loop computes from [s] and [p] alone, and every slot of [gradP] the
    entry of [grad3] selected by that byte; seeding with [s] any number of
    further times changes nothing; and at every point both generators
    produce a sample, the same one. *)
Theorem seed_idempotent_replaces (s : Q) (n1 n2 : Noise.t) (k1 k2 : nat) (x y : Q) :
  wellFormed n1 -> wellFormed n2 ->
  Noise.seed s n1 = Noise.seed s n2 /\
  (forall i, 0 <= i < 512 ->
     JS.get (Noise.perm (Noise.seed s n1)) i
     = Some (Noise.seedValue (Noise.seedInt s) Noise.p_init (i mod 256)) /\
     JS.get (Noise.gradP (Noise.seed s n1)) i
     = Noise.gradient Noise.grad3_init
         (JS.rem (Noise.seedValue (Noise.seedInt s) Noise.p_init (i mod 256)) 12)) /\
  Nat.iter (S k1) (Noise.seed s) n1 = Noise.seed s n1 /\
  exists r,
    Noise.perlin2 (Nat.iter (S k1) (Noise.seed s) n1) x y = Some r /\
    Noise.perlin2 (Nat.iter (S k2) (Noise.seed s) n2) x y = Some r.
Proof.
  intros Hn1 Hn2.
  split; [ rewrite (seed_replaces s n1 Hn1), (seed_replaces s n2 Hn2); reflexivity | ].
  split; [ intros i Hi; split;
           [ apply seed_perm_get; assumption | apply seed_gradP_get; assumption ] | ].
  rewrite (seed_repeated s k1 n1 Hn1), (seed_repeated s k2 n2 Hn2).
  split; [ symmetry; apply seed_replaces, Hn1 | ].
  destruct (perlin2_full _ x y (new_tablesFull s)) as (g00 & g01 & g10 & g11 & Hrun).
  eexists. split; exact Hrun.
Qed.

(** Two generators whose tables disagree everywhere before the call: one as
    [new Array(512)] leaves them, one with every slot of [perm] holding 3
    and every slot of [gradP] a gradient that is not in [grad3]. *)
Definition emptyTables : Noise.t :=
  Noise.mk Noise.grad3_init Noise.p_init (JS.newArray 512) (JS.newArray 512).

Definition staleTables : Noise.t :=
  Noise.mk Noise.grad3_init Noise.p_init
    (replicate 512 (Some 3)) (replicate 512 (Some (Grad.mk 5 5 5))).

Lemma staleTables_wellFormed : wellFormed staleTables.
Proof.
  unfold wellFormed, staleTables. cbn [Noise.grad3 Noise.p Noise.perm Noise.gradP].
  rewrite !length_replicate. repeat split.
Qed.

Lemma seed_idempotent_replaces_witness :
  wellFormed emptyTables /\ wellFormed staleTables /\
  Noise.seed (1 # 3) emptyTables = Noise.seed (1 # 3) staleTables /\
  (forall i, 0 <= i < 512 ->
     JS.get (Noise.perm (Noise.seed (1 # 3) emptyTables)) i
     = Some (Noise.seedValue (Noise.seedInt (1 # 3)) Noise.p_init (i mod 256)) /\
     JS.get (Noise.gradP (Noise.seed (1 # 3) emptyTables)) i
     = Noise.gradient Noise.grad3_init
         (JS.rem (Noise.seedValue (Noise.seedInt (1 # 3)) Noise.p_init (i mod 256)) 12)) /\
  Nat.iter 1 (Noise.seed (1 # 3)) emptyTables = Noise.seed (1 # 3) emptyTables /\
  exists r,
    Noise.perlin2 (Nat.iter 1 (Noise.seed (1 # 3)) emptyTables) (5 # 2) (7 # 3) = Some r /\
    Noise.perlin2 (Nat.iter 3 (Noise.seed (1 # 3)) staleTables) (5 # 2) (7 # 3) = Some r.
Proof.
  split; [ exact fresh_wellFormed | ]. split; [ exact staleTables_wellFormed | ].
  exact (seed_idempotent_replaces (1 # 3) emptyTables staleTables 0 2 (5 # 2) (7 # 3)
           fresh_wellFormed staleTables_wellFormed).
Defined.

(** C9.  On every generator an engine can hold and for every point
    [(x, y)]: both tables have 512 entries, the wrapped cell coordinates lie
    in 0..255, and [perlin2] completes after eight table reads, each of them
    in bounds ([perm] at an index in 0..256, [gradP] at an index in
    0..511). *)
Theorem perlin2_reads_in_bounds (sd0 : Q) (history : list Q) (x y : Q) :
  length (Noise.perm (Noise.reseeded sd0 history)) = 512%nat /\
  length (Noise.gradP (Noise.reseeded sd0 history)) = 512%nat /\
  0 <= Noise.cell x <= 255 /\ 0 <= Noise.cell y <= 255 /\
  exists r log,
    Noise.perlin2_reader (Noise.reseeded sd0 history) x y [] = Some (r, log) /\
    length log = 8%nat /\ Forall accessInBounds log.
Proof.
  destruct (reseeded_wellFormed sd0 history) as (_ & _ & Hl1 & Hl2).
  pose proof (cell_range x) as HX. pose proof (cell_range y) as HY.
  destruct (perlin2_reader_full _ x y [] (reseeded_tablesFull sd0 history))
    as (pY & pY1 & g00 & g01 & g10 & g11 & HbY & HbY1 & Hrun).
  repeat (split; [ assumption | ]).
  eexists; eexists. split; [ exact Hrun | ]. split; [ reflexivity | ].
  rewrite app_nil_l. repeat constructor; simpl; lia.
Qed.

(** ** Loop ranges *)

Lemma range_length (n : Z) : length (JS.range 0 n) = Z.to_nat n.
Proof. unfold JS.range. rewrite length_map, length_seq. f_equal. lia. Qed.

Lemma range_lookup (n : Z) (i : nat) :
  (i < Z.to_nat n)%nat -> JS.range 0 n !! i = Some (Z.of_nat i).
Proof.
  intros Hi. unfold JS.range. rewrite list_lookup_fmap.
  rewrite lookup_seq_lt by lia. reflexivity.
Qed.

Lemma range_empty (n : Z) : n <= 0 -> JS.range 0 n = [].
Proof.
  intros Hn. unfold JS.range. replace (Z.to_nat (n - 0)) with 0%nat by lia. reflexivity.
Qed.

Lemma mapM_total {A B : Type} (f : A -> option B) (g : A -> B) (l : list A) :
  (forall a, f a = Some (g a)) -> mapM f l = Some (map g l).
Proof.
  intros Hf. apply mapM_Some. induction l as [ | a l IH ]; simpl; constructor; auto.
Qed.

Lemma ceilDiv_below_zero (a b : Q) :
  (b < 0)%Q -> (- b <= a)%Q ->
  exists n, JS.ceilDiv a b = JS.Finite n /\ n <= -1.
Proof.
  intros Hb Ha. unfold JS.ceilDiv, JS.ceil.
  destruct (Qeq_bool b 0) eqn:Hb0.
  - apply Qeq_bool_eq in Hb0. rewrite Hb0 in Hb. discriminate.
  - eexists. split; [ reflexivity | ].
    assert (Hq : (a / b <= inject_Z (-1))%Q).
    { assert (Hpos : (1 <= a / - b)%Q) by (apply Qle_shift_div_l; lra).
      assert (Heq : (a / b == - (a / - b))%Q) by (field; lra).
      rewrite Heq. change (inject_Z (-1)) with (- (1))%Q. lra. }
    apply Qceiling_resp_le in Hq. rewrite Qceiling_Z in Hq. exact Hq.
Qed.

(** ** The empty grid *)

(** On a surface of width and height 0 the component's [config] gives a
    grid of 8 columns of 3 points, not an empty one: the padding alone
    spans [ceil(100 / 16) = 7] and [ceil(50 / 40) = 2] gaps. *)
Lemma setLines_zero_surface_not_empty :
  (fun e => (length (lines e), map (fun col => length col) (lines e)))
    <$> setLines config (mounted (Rect.mk 0 0 0 0) 0)
  = Some (8%nat, [3; 3; 3; 3; 3; 3; 3; 3]%nat).
Proof. vm_compute. reflexivity. Qed.

(** Other gaps on a 320 x 200 surface.  With [xGap = 0] the outer loop
    never ends; with [xGap = -1000] the bound is [ceil(-0.42) = 0] and one
    column is built; with [yGap = -40] the 28 columns are there, each empty. *)
Example setLines_other_gaps :
  setLines (Config.mk "grey" 0.008 0.005 20 15 0.94 0.003 60 0 40 0.8 0.001)
           (mounted (Rect.mk 320 200 0 0) 0) = None /\
  (fun e => map (fun col => length col) (lines e))
    <$> setLines (Config.mk "grey" 0.008 0.005 20 15 0.94 0.003 60 (-1000) 40 0.8 0.001)
                 (mounted (Rect.mk 320 200 0 0) 0) = Some [8%nat] /\
  (fun e => map (fun col => length col) (lines e))
    <$> setLines (Config.mk "grey" 0.008 0.005 20 15 0.94 0.003 60 16 (-40) 0.8 0.001)
                 (mounted (Rect.mk 320 200 0 0) 0) = Some (repeat 0%nat 28).
Proof. vm_compute. repeat split. Qed.

(** C3, as the code has it.  When [xGap] is negative and the padded width
    is at least [-xGap] (so that [ceil((w + 100) / xGap) <= -1]), [setLines]
    returns normally with a grid of zero columns; on that grid [movePoints]
    returns normally and changes nothing, and [drawLines] makes no path
    call: it only clears the surface, begins a path, sets the stroke style
    and line width, and strokes. *)
Theorem empty_grid_is_tolerated (cfg : Config.t) (M : Math) (e : Engine) (time : Q) :
  (Config.xGap cfg < 0)%Q ->
  (- Config.xGap cfg <= Rect.width (bounding e) + paddingX)%Q ->
  exists e',
    setLines cfg e = Some e' /\
    lines e' = [] /\
    movePoints cfg time e' = Some e' /\
    drawLines cfg e' =
      match ctx e' with
      | None => e'
      | Some calls =>
          with_ctx e'
            (Some (calls ++ [ClearRect 0 0 (Rect.width (bounding e')) (Rect.height (bounding e'));
                             BeginPath; SetStrokeStyle (Config.lineColor cfg);
                             SetLineWidth 1; Stroke]))
      end.
Proof.
  intros Hgx Hw.
  destruct (ceilDiv_below_zero _ _ Hgx Hw) as (n & Hn & Hneg).
  exists (with_lines e []). split.
  - unfold setLines. rewrite Hn. cbn [JS.upTo].
    rewrite range_empty by lia. reflexivity.
  - split; [ reflexivity | ]. split; [ reflexivity | ].
    unfold drawLines. destruct e as [b nz ls ms fid [calls | ] lt nh]; cbn.
    + rewrite <- app_assoc. reflexivity.
    + reflexivity.
Qed.

Lemma empty_grid_is_tolerated_witness :
  exists e',
    setLines (Config.mk "grey" 0.008 0.005 20 15 0.94 0.003 60 (-16) 40 0.8 0.001)
             (mounted (Rect.mk 320 200 0 0) 0) = Some e' /\
    lines e' = [].
Proof.
  destruct (empty_grid_is_tolerated
              (Config.mk "grey" 0.008 0.005 20 15 0.94 0.003 60 (-16) 40 0.8 0.001)
              RefMath (mounted (Rect.mk 320 200 0 0) 0) 0)
    as (e' & Hrun & Hempty & _); [ reflexivity | discriminate | ].
  exists e'. split; [ exact Hrun | exact Hempty ].
Defined.

(** ** Frame throttling *)

(** C7.  When [tick] is called less than [frameInterval] after the last
    accepted frame it only asks for the next frame: the result is the state
    with a new frame handle and nothing else changed; the pointer state,
    the grid, the drawing log and [lastTime] are those of before. *)
Theorem tick_drops_early_frame (cfg : Config.t) (M : Math) (t : Q) (e : Engine) :
  (t - lastTime e < frameInterval)%Q ->
  tick cfg t e = Some (requestFrame e) /\
  mouse (requestFrame e) = mouse e /\
  lines (requestFrame e) = lines e /\
  ctx (requestFrame e) = ctx e /\
  lastTime (requestFrame e) = lastTime e /\
  noise (requestFrame e) = noise e /\
  bounding (requestFrame e) = bounding e /\
  frameId (requestFrame e) = Some (nextHandle e).
Proof.
  intros Hearly. unfold tick, JS.lt.
  destruct (Qle_bool frameInterval (t - lastTime e)) eqn:Hle.
  - apply Qle_bool_iff in Hle. lra.
  - repeat split.
Qed.

Lemma tick_drops_early_frame_witness :
  (20 - lastTime (mounted (Rect.mk 320 200 0 0) 0) < frameInterval)%Q /\
  @tick config RefMath 20 (mounted (Rect.mk 320 200 0 0) 0)
    = Some (requestFrame (mounted (Rect.mk 320 200 0 0) 0)).
Proof.
  split; [ reflexivity | ].
  apply (tick_drops_early_frame config RefMath 20 (mounted (Rect.mk 320 200 0 0) 0)).
  reflexivity.
Defined.

(** ** Flattening a list of single calls *)

Lemma concat_singletons {A B : Type} (g : A -> B) (l : list A) :
  concat (map (fun a => [g a]) l) = map g l.
Proof. induction l as [ | a l IH ]; simpl; [ reflexivity | rewrite IH; reflexivity ]. Qed.

(** ** The pointer tracker *)

(** From the initial pointer state, with no input event at all, the first
    [advance] raises [vs] from 0 to 0.6: the initial position [(-10, 0)] is
    10 away from the initial last position [(0, 0)]. *)
Lemma advance_initial_raises_vs :
  (Qabs (MouseState.vs MouseState.init) == 0 /\
   MouseState.vs (@advance RefMath MouseState.init) == 0.6 /\
   Qabs (MouseState.vs MouseState.init)
     < Qabs (MouseState.vs (@advance RefMath MouseState.init)))%Q.
Proof. vm_compute. repeat split. Qed.

Lemma advance_settles (M : Math) (m : MouseState.t) :
  MouseState.lx (advance m) = MouseState.x (advance m) /\
  MouseState.ly (advance m) = MouseState.y (advance m).
Proof. split; reflexivity. Qed.

Lemma advance_decays (M : Math) (m : MouseState.t) :
  MouseState.lx m = MouseState.x m -> MouseState.ly m = MouseState.y m ->
  (MouseState.vs (advance m) == Qmin 60 (0.94 * MouseState.vs m) /\
   Qabs (MouseState.vs (advance m)) <= Qabs (MouseState.vs m))%Q.
Proof.
  intros Hx Hy. unfold advance. cbn [MouseState.vs]. rewrite Hx, Hy. unfold JS.min.
  assert (Hd : (hypot (MouseState.x m - MouseState.x m) (MouseState.y m - MouseState.y m) == 0)%Q)
    by (apply hypot_zero; ring).
  set (d := hypot _ _) in *. set (v := MouseState.vs m).
  assert (Hv : (v + (d - v) * 0.06 == 0.94 * v)%Q) by (rewrite Hd; ring).
  split.
  - destruct (Q.min_spec 60 (v + (d - v) * 0.06)) as [[H1 ->] | [H1 ->]];
      destruct (Q.min_spec 60 (0.94 * v)) as [[H2 ->] | [H2 ->]]; lra.
  - apply Qabs_Qle_condition.
    destruct (Q.min_spec 60 (v + (d - v) * 0.06)) as [[H1 ->] | [H1 ->]];
      destruct (Qlt_le_dec v 0) as [Hneg | Hpos].
    + lra.
    + rewrite (Qabs_pos v Hpos). lra.
    + rewrite (Qabs_neg v) by lra. lra.
    + rewrite (Qabs_pos v Hpos). lra.
Qed.

(** C6, as the code has it.  From any pointer state, once [advance] has
    run (it may raise [vs] when the position differs from the last
    position), every further [advance] without an input event multiplies
    [vs] by 0.94, capped at 60: [vs] is no farther from 0 than it was
    before that call. *)
Theorem advance_decays_after_first (M : Math) (m : MouseState.t) (n : nat) :
  (MouseState.vs (Nat.iter (S (S n)) advance m)
     == Qmin 60 (0.94 * MouseState.vs (Nat.iter (S n) advance m)) /\
   Qabs (MouseState.vs (Nat.iter (S (S n)) advance m))
     <= Qabs (MouseState.vs (Nat.iter (S n) advance m)))%Q.
Proof.
  rewrite (iter_succ advance (S n)).
  rewrite (iter_succ advance n).
  apply advance_decays; apply advance_settles.
Qed.

(** ** One simulator step *)

Lemma clamp_abs (bound x : Q) :
  (0 <= bound -> Qabs (JS.min bound (JS.max (- bound) x)) <= bound)%Q.
Proof.
  intros Hb. unfold JS.min, JS.max. apply Qabs_Qle_condition.
  destruct (Q.max_spec (- bound) x) as [[H1 Hmax] | [H1 Hmax]];
    destruct (Q.min_spec bound (Qmax (- bound) x)) as [[H2 ->] | [H2 ->]];
    rewrite ?Hmax in *; lra.
Qed.

Lemma scaled_unit_abs (c amp : Q) : (-1 <= c <= 1 -> 0 <= amp -> - amp <= c * amp <= amp)%Q.
Proof.
  intros [Hlo Hhi] Ha.
  assert (H1 : (0 <= (1 - c) * amp)%Q) by (apply Qmult_le_0_compat; lra).
  assert (H2 : (0 <= (1 + c) * amp)%Q) by (apply Qmult_le_0_compat; lra).
  lra.
Qed.

Lemma wave_abs (a b amp intensity : Q) (f g : Q -> Q) :
  (forall t, -1 <= f t <= 1)%Q -> (forall t, -1 <= g t <= 1)%Q ->
  (0 <= amp -> 0 <= intensity ->
   Qabs (f a * amp + g b * intensity) <= amp + intensity)%Q.
Proof.
  intros Hf Hg Ha Hi. apply Qabs_Qle_condition.
  pose proof (scaled_unit_abs (f a) amp (Hf a) Ha).
  pose proof (scaled_unit_abs (g b) intensity (Hg b) Hi).
  lra.
Qed.

Lemma movePoint_full (cfg : Config.t) (M : Math) (nz : Noise.t) (ms : MouseState.t)
    (time : Q) (p : Point.t) :
  tablesFull nz ->
  exists p',
    movePoint cfg nz ms time p = Some p' /\
    ((0 <= Config.maxCursorMove cfg)%Q -> cursorClamped cfg p') /\
    ((0 <= Config.waveAmpX cfg)%Q -> (0 <= Config.waveAmpY cfg)%Q ->
     (0 <= Config.autoWaveIntensity cfg)%Q -> waveBounded cfg p').
Proof.
  intros Hfull.
  destruct (perlin2_full nz ((Point.x p + time * Config.waveSpeedX cfg) * 0.001)
              ((Point.y p + time * Config.waveSpeedY cfg) * 0.001) Hfull)
    as (g00 & g01 & g10 & g11 & Hrun).
  unfold movePoint. rewrite Hrun. cbn [mbind option_bind].
  destruct (JS.lt _ _); cbv zeta; cbn [fst snd];
    (eexists; split; [ reflexivity | ]);
    (split;
     [ intros Hmax; unfold cursorClamped; cbn [Point.cursor Cursor.x Cursor.y];
       split; apply clamp_abs, Hmax
     | intros Hax Hay Hi; unfold waveBounded; cbn [Point.wave Wave.x Wave.y];
       split; [ apply (wave_abs _ _ _ _ cos sin) | apply (wave_abs _ _ _ _ sin cos) ];
       auto using cos_range, sin_range ]).
Qed.

Lemma mapM_Forall {A B : Type} (f : A -> option B) (P : B -> Prop) (l : list A) :
  (forall a, exists b, f a = Some b /\ P b) ->
  exists k, mapM f l = Some k /\ Forall P k.
Proof.
  intros Hf. induction l as [ | a l (k & Hk & HP) ].
  - exists []. split; [ reflexivity | constructor ].
  - destruct (Hf a) as (b & Hb & Pb). exists (b :: k). split.
    + apply mapM_Some. constructor; [ exact Hb | apply mapM_Some, Hk ].
    + constructor; assumption.
Qed.

Lemma moveGrid_full (cfg : Config.t) (M : Math) (nz : Noise.t) (ms : MouseState.t)
    (time : Q) (ls : list (list Point.t)) :
  tablesFull nz ->
  exists ls',
    moveGrid cfg nz ms time ls = Some ls' /\
    ((0 <= Config.maxCursorMove cfg)%Q -> Forall (Forall (cursorClamped cfg)) ls') /\
    ((0 <= Config.waveAmpX cfg)%Q -> (0 <= Config.waveAmpY cfg)%Q ->
     (0 <= Config.autoWaveIntensity cfg)%Q -> Forall (Forall (waveBounded cfg)) ls').
Proof.
  intros Hfull. unfold moveGrid.
  destruct (mapM_Forall (mapM (movePoint cfg nz ms time))
              (Forall (fun p' =>
                 ((0 <= Config.maxCursorMove cfg)%Q -> cursorClamped cfg p') /\
                 ((0 <= Config.waveAmpX cfg)%Q -> (0 <= Config.waveAmpY cfg)%Q ->
                  (0 <= Config.autoWaveIntensity cfg)%Q -> waveBounded cfg p')))
              ls) as (ls' & Hrun & Hall).
  { intros col. apply mapM_Forall. intros p. apply movePoint_full, Hfull. }
  exists ls'. split; [ exact Hrun | ]. split.
  - intros Hmax. eapply Forall_impl; [ exact Hall | ].
    intros col Hcol. eapply Forall_impl; [ exact Hcol | ].
    intros p' [Hc _]. exact (Hc Hmax).
  - intros Hax Hay Hi. eapply Forall_impl; [ exact Hall | ].
    intros col Hcol. eapply Forall_impl; [ exact Hcol | ].
    intros p' [_ Hw]. exact (Hw Hax Hay Hi).
Qed.

Lemma simulate_total (cfg : Config.t) (M : Math) (nz : Noise.t)
    (steps : list (Q * MouseState.t)) (ls : list (list Point.t)) :
  tablesFull nz -> exists ls', simulate cfg nz steps ls = Some ls'.
Proof.
  intros Hfull. unfold simulate. revert ls.
  induction steps as [ | step steps IH ]; intros ls.
  - exists ls. reflexivity.
  - destruct (moveGrid_full cfg M nz (snd step) (fst step) ls Hfull) as (ls1 & Hrun & _).
    destruct (IH ls1) as (ls' & Hrest). exists ls'.
    cbn [foldl mbind option_bind]. rewrite Hrun. exact Hrest.
Qed.

(** C2.  Run the simulator for any non-empty sequence of steps, each with
    its own time and pointer state, on a generator the engine can hold and
    from any grid (the initial one included): the run completes and, after
    its last step, every point has [|cursor.x| <= maxCursorMove] and
    [|cursor.y| <= maxCursorMove].  The sequence being arbitrary, this holds
    after each step.  [maxCursorMove] is taken non-negative, as in
    [config]. *)
Theorem cursor_offset_clamped (cfg : Config.t) (M : Math) (sd0 : Q) (history : list Q)
    (steps : list (Q * MouseState.t)) (step : Q * MouseState.t)
    (ls : list (list Point.t)) :
  (0 <= Config.maxCursorMove cfg)%Q ->
  exists ls',
    simulate cfg (Noise.reseeded sd0 history) (steps ++ [step]) ls = Some ls' /\
    Forall (Forall (fun p =>
                      (Qabs (Cursor.x (Point.cursor p)) <= Config.maxCursorMove cfg /\
                       Qabs (Cursor.y (Point.cursor p)) <= Config.maxCursorMove cfg)%Q)) ls'.
Proof.
  intros Hmax.
  pose proof (reseeded_tablesFull sd0 history) as Hfull.
  destruct (simulate_total cfg M _ steps ls Hfull) as (ls1 & Hrun1).
  destruct (moveGrid_full cfg M _ (snd step) (fst step) ls1 Hfull) as (ls' & Hrun & Hclamp & _).
  exists ls'. split; [ | exact (Hclamp Hmax) ].
  unfold simulate in *. rewrite foldl_app, Hrun1. cbn [foldl mbind option_bind]. exact Hrun.
Qed.

Lemma cursor_offset_clamped_witness :
  (0 <= Config.maxCursorMove config)%Q /\
  exists ls',
    @simulate config RefMath (Noise.reseeded 0 [])
      ([(33%Q, MouseState.init)] ++ [(66%Q, MouseState.init)])
      [[newPoint config 0 0 0 0; newPoint config 0 0 0 1]] = Some ls' /\
    Forall (Forall (fun p =>
                      (Qabs (Cursor.x (Point.cursor p)) <= Config.maxCursorMove config /\
                       Qabs (Cursor.y (Point.cursor p)) <= Config.maxCursorMove config)%Q)) ls'.
Proof.
  split; [ discriminate | ].
  apply (cursor_offset_clamped config RefMath 0 [] [(33%Q, MouseState.init)]
           (66%Q, MouseState.init)).
  discriminate.
Defined.

(** C10.  After [movePoints], for any time, pointer state and grid, on a
    generator the engine can hold: the call completes and every point has
    [|wave.x| <= waveAmpX + autoWaveIntensity] and
    [|wave.y| <= waveAmpY + autoWaveIntensity].  The two amplitudes and the
    intensity are taken non-negative, as in [config]. *)
Theorem wave_offset_bounded (cfg : Config.t) (M : Math) (sd0 : Q) (history : list Q)
    (time : Q) (e : Engine) :
  (0 <= Config.waveAmpX cfg)%Q -> (0 <= Config.waveAmpY cfg)%Q ->
  (0 <= Config.autoWaveIntensity cfg)%Q ->
  noise e = Noise.reseeded sd0 history ->
  exists e',
    movePoints cfg time e = Some e' /\
    Forall (Forall (fun p =>
                      (Qabs (Wave.x (Point.wave p))
                         <= Config.waveAmpX cfg + Config.autoWaveIntensity cfg /\
                       Qabs (Wave.y (Point.wave p))
                         <= Config.waveAmpY cfg + Config.autoWaveIntensity cfg)%Q))
           (lines e').
Proof.
  intros Hax Hay Hi Hnoise.
  pose proof (reseeded_tablesFull sd0 history) as Hfull. rewrite <- Hnoise in Hfull.
  destruct (moveGrid_full cfg M (noise e) (mouse e) time (lines e) Hfull)
    as (ls' & Hrun & _ & Hwave).
  exists (with_lines e ls'). split; [ | exact (Hwave Hax Hay Hi) ].
  unfold movePoints. rewrite Hrun. reflexivity.
Qed.

Lemma wave_offset_bounded_witness :
  exists e',
    @movePoints config RefMath 33
      (with_lines (mounted (Rect.mk 320 200 0 0) 0)
                  [[newPoint config 0 0 0 0; newPoint config 0 0 0 1]]) = Some e' /\
    Forall (Forall (fun p =>
                      (Qabs (Wave.x (Point.wave p))
                         <= Config.waveAmpX config + Config.autoWaveIntensity config /\
                       Qabs (Wave.y (Point.wave p))
                         <= Config.waveAmpY config + Config.autoWaveIntensity config)%Q))
           (lines e').
Proof.
  apply (wave_offset_bounded config RefMath 0 [] 33
           (with_lines (mounted (Rect.mk 320 200 0 0) 0)
                       [[newPoint config 0 0 0 0; newPoint config 0 0 0 1]]));
    [ discriminate | discriminate | discriminate | reflexivity ].
Defined.

Lemma advance_decays_after_first_witness :
  (MouseState.vs (Nat.iter 2 (@advance RefMath) MouseState.init)
     == Qmin 60 (0.94 * MouseState.vs (Nat.iter 1 (@advance RefMath) MouseState.init)) /\
   Qabs (MouseState.vs (Nat.iter 2 (@advance RefMath) MouseState.init))
     <= Qabs (MouseState.vs (Nat.iter 1 (@advance RefMath) MouseState.init)))%Q.
Proof. exact (advance_decays_after_first RefMath MouseState.init 0). Defined.

(** ** The model on concrete inputs *)

(** A 320 x 200 surface with the component's gaps: 28 columns of 8 points. *)
Example setLines_320_200 :
  (fun e => (length (lines e), map (fun col => length col) (lines e)))
    <$> setLines config (mounted (Rect.mk 320 200 0 0) 0)
  = Some (28%nat, repeat 8%nat 28).
Proof. vm_compute. reflexivity. Qed.

(** The eight table reads of one sample, for the seed 1/3. *)
Example perlin2_reads_sample :
  snd <$> Noise.perlin2_reader (Noise.new (1 # 3)) 3 (-7) []
  = Some [Noise.ReadPerm 249; Noise.ReadGradP 153; Noise.ReadPerm 250; Noise.ReadGradP 30;
          Noise.ReadPerm 249; Noise.ReadGradP 154; Noise.ReadPerm 250; Noise.ReadGradP 31].
Proof. vm_compute. reflexivity. Qed.

(** The integer [seed] works with, for a fraction, a small integer, a
    negative integer and an integer above 255. *)
Example seedInt_samples :
  (Noise.seedInt (1 # 3), Noise.seedInt 5, Noise.seedInt (-5), Noise.seedInt 300)
  = (21845, 1285, -5, 300).
Proof. vm_compute. reflexivity. Qed.

(** An accepted frame on the mounted component, zero-sized surface: the
    frame time is recorded, the pointer has advanced, and the drawing
    context has received 45 calls (4 to set up, 5 for each of the 8 columns
    of 3 points, 1 stroke). *)
Example tick_accepts_frame :
  (fun e => (Qred (lastTime e), Qred (MouseState.vs (mouse e)), frameId e,
             length <$> ctx e))
    <$> (setLines config (mounted (Rect.mk 0 0 0 0) 0) ≫= @tick config RefMath 40)
  = Some (40%Q, (3 # 5)%Q, Some 1, Some 45%nat).
Proof. vm_compute. reflexivity. Qed.

(** * Further properties of the generator *)

(** ** The tables after seeding *)

Lemma new_perm_get (sd : Q) (i : Z) :
  0 <= i < 512 ->
  JS.get (Noise.perm (Noise.new sd)) i
  = Some (Noise.seedValue (Noise.seedInt sd) Noise.p_init (i mod 256)).
Proof.
  intros Hi. unfold Noise.new, JS.get.
  destruct (Z.ltb_spec i 0) as [Hneg | _]; [ lia | ].
  rewrite (seed_perm_lookup sd _ (Z.to_nat i) fresh_wellFormed) by lia.
  rewrite Z2Nat.id by lia. reflexivity.
Qed.

Lemma new_gradP_get (sd : Q) (i : Z) :
  0 <= i < 512 ->
  JS.get (Noise.gradP (Noise.new sd)) i
  = Noise.gradient Noise.grad3_init
      (JS.rem (Noise.seedValue (Noise.seedInt sd) Noise.p_init (i mod 256)) 12).
Proof.
  intros Hi. unfold Noise.new, JS.get.
  destruct (Z.ltb_spec i 0) as [Hneg | _]; [ lia | ].
  rewrite (seed_gradP_lookup sd _ (Z.to_nat i) fresh_wellFormed) by lia.
  rewrite Z2Nat.id by lia. reflexivity.
Qed.

(** X5.  The invariant of the two tables, on every generator an engine can
    hold: for [i] in 0..255 the entries [perm[i]] and [perm[i + 256]] are
    the same byte [v], the entries [gradP[i]] and [gradP[i + 256]] are the
    same gradient, and that gradient is [grad3[v % 12]]. *)
Theorem tables_mirrored (sd0 : Q) (history : list Q) (i : Z) :
  0 <= i < 256 ->
  exists v g,
    JS.get (Noise.perm (Noise.reseeded sd0 history)) i = Some v /\
    JS.get (Noise.perm (Noise.reseeded sd0 history)) (i + 256) = Some v /\
    0 <= v <= 255 /\
    JS.get (Noise.gradP (Noise.reseeded sd0 history)) i = Some g /\
    JS.get (Noise.gradP (Noise.reseeded sd0 history)) (i + 256) = Some g /\
    Noise.gradient (Noise.grad3 (Noise.reseeded sd0 history)) (JS.rem v 12) = Some g.
Proof.
  intros Hi.
  destruct (reseeded_wellFormed sd0 history) as (Hg3 & _).
  rewrite Hg3.
  destruct (reseeded_new sd0 history) as [sd ->].
  assert (Hm : (i + 256) mod 256 = i mod 256).
  { rewrite <- (Z.mul_1_l 256) at 1. rewrite Z.mod_add by lia. reflexivity. }
  pose proof (seedValue_byte (Noise.seedInt sd) (i mod 256)) as Hv.
  destruct (gradient_byte _ Hv) as [g Hg].
  exists (Noise.seedValue (Noise.seedInt sd) Noise.p_init (i mod 256)), g.
  rewrite !new_perm_get, !new_gradP_get by lia. rewrite Hm.
  repeat split; try assumption; lia.
Qed.

Lemma tables_mirrored_witness :
  exists v g,
    JS.get (Noise.perm (Noise.reseeded 7 [(1 # 3)%Q])) 200 = Some v /\
    JS.get (Noise.perm (Noise.reseeded 7 [(1 # 3)%Q])) (200 + 256) = Some v /\
    0 <= v <= 255 /\
    JS.get (Noise.gradP (Noise.reseeded 7 [(1 # 3)%Q])) 200 = Some g /\
    JS.get (Noise.gradP (Noise.reseeded 7 [(1 # 3)%Q])) (200 + 256) = Some g /\
    Noise.gradient (Noise.grad3 (Noise.reseeded 7 [(1 # 3)%Q])) (JS.rem v 12) = Some g.
Proof. apply (tables_mirrored 7 [(1 # 3)%Q] 200). lia. Defined.

(** ** What the tables depend on *)

Lemma ToInt32_mod (z m k : Z) : 0 < m -> 2 ^ 32 = k * m -> JS.ToInt32 z mod m = z mod m.
Proof.
  intros Hm Hk. unfold JS.ToInt32.
  rewrite (Z.mod_eq (z + 2 ^ 31) (2 ^ 32)) by lia. rewrite Hk.
  replace (z + 2 ^ 31 - k * m * ((z + 2 ^ 31) / (k * m)) - 2 ^ 31)
    with (z + (- (k * ((z + 2 ^ 31) / (k * m)))) * m) by ring.
  apply Z_mod_plus_full.
Qed.

Lemma div_mod_256 (t : Z) : (t / 256) mod 256 = (t mod 65536) / 256.
Proof.
  change 65536 with (256 * 256). rewrite Z.rem_mul_r by lia.
  rewrite (Z.mul_comm 256 ((t / 256) mod 256)), Z.div_add by lia.
  rewrite (Z.div_small (t mod 256)) by (apply Z.mod_pos_bound; lia). lia.
Qed.

Lemma mask_low (s : Z) : JS.bitand s 255 = s mod 256.
Proof.
  unfold JS.bitand. rewrite (ToInt32_small 255) by lia.
  rewrite land_255_mod. apply (ToInt32_mod s 256 (2 ^ 24)); lia.
Qed.

Lemma mask_high (s : Z) : JS.bitand (JS.sar s 8) 255 = (s mod 65536) / 256.
Proof.
  rewrite mask_low. unfold JS.sar. change (8 mod 32) with 8.
  rewrite Z.shiftr_div_pow2 by lia. change (2 ^ 8) with 256.
  rewrite div_mod_256. f_equal. apply (ToInt32_mod s 65536 (2 ^ 16)); lia.
Qed.

Lemma seedValue_low16 (s s' : Z) (ptab : list Z) (i : Z) :
  s mod 65536 = s' mod 65536 -> Noise.seedValue s ptab i = Noise.seedValue s' ptab i.
Proof.
  intros Heq. unfold Noise.seedValue. rewrite !mask_high, !mask_low, Heq.
  assert (Hlow : s mod 256 = s' mod 256).
  { assert (Hdiv : (256 | 65536)) by (exists 256; reflexivity).
    rewrite <- (Z.mod_mod_divide s 65536 256 Hdiv).
    rewrite <- (Z.mod_mod_divide s' 65536 256 Hdiv).
    rewrite Heq. reflexivity. }
  rewrite Hlow. reflexivity.
Qed.

(** Two seeds that give the same byte at every index give the same
    generator. *)
Lemma new_ext (sd sd' : Q) :
  (forall i, Noise.seedValue (Noise.seedInt sd) Noise.p_init i
             = Noise.seedValue (Noise.seedInt sd') Noise.p_init i) ->
  Noise.new sd = Noise.new sd'.
Proof.
  intros Hval.
  pose proof (new_wellFormed sd) as (Hg & Hp & Hl1 & Hl2).
  pose proof (new_wellFormed sd') as (Hg' & Hp' & Hl1' & Hl2').
  apply noise_eq; try congruence.
  - apply list_eq. intros j. destruct (Nat.lt_ge_cases j 512) as [Hlt | Hge].
    + unfold Noise.new.
      rewrite (seed_perm_lookup sd _ j fresh_wellFormed Hlt).
      rewrite (seed_perm_lookup sd' _ j fresh_wellFormed Hlt).
      rewrite Hval. reflexivity.
    + rewrite !lookup_ge_None_2 by lia. reflexivity.
  - apply list_eq. intros j. destruct (Nat.lt_ge_cases j 512) as [Hlt | Hge].
    + unfold Noise.new.
      rewrite (seed_gradP_lookup sd _ j fresh_wellFormed Hlt).
      rewrite (seed_gradP_lookup sd' _ j fresh_wellFormed Hlt).
      rewrite Hval. reflexivity.
    + rewrite !lookup_ge_None_2 by lia. reflexivity.
Qed.

Lemma lt_inject_Z (a b : Z) : JS.lt (inject_Z a) (inject_Z b) = (a <? b).
Proof.
  unfold JS.lt. destruct (Z.ltb_spec a b) as [Hlt | Hge].
  - destruct (Qle_bool (inject_Z b) (inject_Z a)) eqn:Hle; [ | reflexivity ].
    apply Qle_bool_iff in Hle. rewrite <- Zle_Qle in Hle. lia.
  - assert (Hle : Qle_bool (inject_Z b) (inject_Z a) = true)
      by (apply Qle_bool_iff; rewrite <- Zle_Qle; exact Hge).
    rewrite Hle. reflexivity.
Qed.

Lemma seedInt_integer (s : Z) :
  Noise.seedInt (inject_Z s) = if s <? 256 then JS.bitor s (JS.shl s 8) else s.
Proof.
  unfold Noise.seedInt.
  change 0%Q with (inject_Z 0). change 1%Q with (inject_Z 1).
  rewrite !lt_inject_Z.
  assert (Hno : (0 <? s) && (s <? 1) = false).
  { destruct (Z.ltb_spec 0 s); destruct (Z.ltb_spec s 1); try reflexivity. lia. }
  rewrite Hno. unfold JS.floor. rewrite Qfloor_Z. reflexivity.
Qed.

(** X6.  Of an integer seed of 256 or more only the low 16 bits count: two
    such seeds that agree modulo 65536 leave any two generators, whatever
    their histories, in the same state. *)
Theorem seed_low_16_bits (s s' : Z) (sd1 sd2 : Q) (history1 history2 : list Q) :
  256 <= s -> 256 <= s' -> s mod 65536 = s' mod 65536 ->
  Noise.seed (inject_Z s) (Noise.reseeded sd1 history1)
  = Noise.seed (inject_Z s') (Noise.reseeded sd2 history2).
Proof.
  intros Hs Hs' Heq.
  rewrite (seed_replaces _ _ (reseeded_wellFormed sd1 history1)).
  rewrite (seed_replaces _ _ (reseeded_wellFormed sd2 history2)).
  apply new_ext. intros i. apply seedValue_low16.
  rewrite !seedInt_integer.
  destruct (Z.ltb_spec s 256); [ lia | ]. destruct (Z.ltb_spec s' 256); [ lia | ].
  exact Heq.
Qed.

Lemma seed_low_16_bits_witness :
  Noise.seed (inject_Z 300) (Noise.reseeded 0 [])
  = Noise.seed (inject_Z (300 + 3 * 65536)) (Noise.reseeded (1 # 2) [5%Q]).
Proof.
  apply (seed_low_16_bits 300 (300 + 3 * 65536) 0 (1 # 2) [] [5%Q]);
    [ lia | lia | reflexivity ].
Defined.

Lemma lt_true (a b : Q) : (a < b)%Q -> JS.lt a b = true.
Proof.
  intros Hlt. unfold JS.lt. destruct (Qle_bool b a) eqn:Hle; [ | reflexivity ].
  apply Qle_bool_iff in Hle. lra.
Qed.

(** X8.  A seed strictly between 0 and 1 does what the integer seed
    [floor(65536 * seed)] does: both leave any two generators in the same
    state. *)
Theorem seed_fraction_scaled (sd sd1 sd2 : Q) (history1 history2 : list Q) :
  (0 < sd)%Q -> (sd < 1)%Q ->
  Noise.seed sd (Noise.reseeded sd1 history1)
  = Noise.seed (inject_Z (JS.floor (sd * 65536))) (Noise.reseeded sd2 history2).
Proof.
  intros H0 H1.
  rewrite (seed_replaces _ _ (reseeded_wellFormed sd1 history1)).
  rewrite (seed_replaces _ _ (reseeded_wellFormed sd2 history2)).
  apply new_ext. intros i. f_equal.
  rewrite seedInt_integer. unfold Noise.seedInt.
  rewrite (lt_true 0 sd H0), (lt_true sd 1 H1). reflexivity.
Qed.

Lemma seed_fraction_scaled_witness :
  Noise.seed (1 # 3) (Noise.reseeded 0 [])
  = Noise.seed (inject_Z (JS.floor ((1 # 3) * 65536))) (Noise.reseeded 9 [2%Q]).
Proof.
  apply (seed_fraction_scaled (1 # 3) 0 9 [] [2%Q]); reflexivity.
Defined.

(** ** Seeds below 256 *)

Lemma byte_seed_masks (s : Z) :
  0 <= s <= 255 ->
  JS.bitand (JS.bitor s (JS.shl s 8)) 255 = s /\
  JS.bitand (JS.sar (JS.bitor s (JS.shl s 8)) 8) 255 = s.
Proof.
  intros Hs.
  assert (Hall : forallb (fun s => (JS.bitand (JS.bitor s (JS.shl s 8)) 255 =? s)
                                   && (JS.bitand (JS.sar (JS.bitor s (JS.shl s 8)) 8) 255 =? s))
                         (JS.range 0 256) = true) by (vm_compute; reflexivity).
  rewrite forallb_forall in Hall.
  specialize (Hall s). rewrite andb_true_iff, !Z.eqb_eq in Hall.
  apply Hall. apply list_elem_of_In, range_elem. lia.
Qed.

Lemma p_init_lookup (i : Z) :
  0 <= i < 256 -> Noise.p_init !! Z.to_nat i = Some (nth (Z.to_nat i) Noise.p_init 0).
Proof.
  intros Hi.
  destruct (nth_lookup_or_length Noise.p_init (Z.to_nat i) 0) as [Hl | Hlen];
    [ exact Hl | ].
  change (length Noise.p_init) with 256%nat in Hlen. lia.
Qed.

Lemma p_init_NoDup : NoDup Noise.p_init.
Proof.
  assert (Hdec : bool_decide (NoDup Noise.p_init)) by (vm_compute; exact I).
  exact (bool_decide_unpack _ Hdec).
Qed.

Lemma p_init_all_bytes (v : Z) : 0 <= v <= 255 -> v ∈ Noise.p_init.
Proof.
  intros Hv.
  assert (Hall : forallb (fun v => existsb (Z.eqb v) Noise.p_init) (JS.range 0 256) = true)
    by (vm_compute; reflexivity).
  rewrite forallb_forall in Hall.
  specialize (Hall v ltac:(apply list_elem_of_In, range_elem; lia)).
  apply existsb_exists in Hall as (w & Hin & Heq).
  apply Z.eqb_eq in Heq. subst w. apply list_elem_of_In, Hin.
Qed.

Lemma lxor_twice (a b : Z) : Z.lxor (Z.lxor a b) b = a.
Proof. rewrite Z.lxor_assoc, Z.lxor_nilpotent, Z.lxor_0_r. reflexivity. Qed.

Lemma byte_seed_value (s i : Z) :
  0 <= s <= 255 ->
  Noise.seedValue (Noise.seedInt (inject_Z s)) Noise.p_init i
  = Z.lxor (nth (Z.to_nat i) Noise.p_init 0) s.
Proof.
  intros Hs. rewrite seedInt_integer.
  destruct (Z.ltb_spec s 256) as [_ | Hge]; [ | lia ].
  destruct (byte_seed_masks s Hs) as [Hlo Hhi].
  unfold Noise.seedValue. rewrite Hlo, Hhi.
  pose proof (p_init_byte (Z.to_nat i)) as Hp.
  destruct (negb _); unfold JS.bitxor; rewrite !ToInt32_small by lia; reflexivity.
Qed.

(** X7.  For an integer seed [s] in 0..255 the table is the base
    permutation xor-ed with [s]: [perm[i] = p[i mod 256] ^ s] for every [i]
    in 0..511, and [perm[0..255]] is a permutation of the bytes (no byte
    twice, every byte present). *)
Theorem byte_seed_permutation (s : Z) :
  0 <= s <= 255 ->
  (forall i, 0 <= i < 512 ->
     JS.get (Noise.perm (Noise.new (inject_Z s))) i
     = Some (Z.lxor (nth (Z.to_nat (i mod 256)) Noise.p_init 0) s)) /\
  (forall i j, 0 <= i < 256 -> 0 <= j < 256 ->
     JS.get (Noise.perm (Noise.new (inject_Z s))) i
     = JS.get (Noise.perm (Noise.new (inject_Z s))) j -> i = j) /\
  (forall v, 0 <= v <= 255 ->
     exists i, 0 <= i < 256 /\ JS.get (Noise.perm (Noise.new (inject_Z s))) i = Some v).
Proof.
  intros Hs.
  assert (Hget : forall i, 0 <= i < 512 ->
            JS.get (Noise.perm (Noise.new (inject_Z s))) i
            = Some (Z.lxor (nth (Z.to_nat (i mod 256)) Noise.p_init 0) s)).
  { intros i Hi. rewrite new_perm_get by exact Hi. rewrite byte_seed_value by exact Hs.
    reflexivity. }
  split; [ exact Hget | ]. split.
  - intros i j Hi Hj Heq. rewrite !Hget in Heq by lia.
    rewrite !Z.mod_small in Heq by lia.
    pose proof (p_init_lookup i Hi) as Hli. pose proof (p_init_lookup j Hj) as Hlj.
    remember (nth (Z.to_nat i) Noise.p_init 0) as pi eqn:Epi.
    remember (nth (Z.to_nat j) Noise.p_init 0) as pj eqn:Epj.
    assert (Hxor : Z.lxor pi s = Z.lxor pj s) by congruence.
    assert (Hnth : pi = pj).
    { rewrite <- (lxor_twice pi s), Hxor. apply lxor_twice. }
    rewrite Hnth in Hli.
    pose proof (proj1 (NoDup_alt Noise.p_init) p_init_NoDup _ _ _ Hli Hlj). lia.
  - intros v Hv.
    pose proof (lxor_byte v s Hv Hs) as Hw.
    pose proof (p_init_all_bytes _ Hw) as Hin.
    apply list_elem_of_lookup in Hin as (k & Hk).
    pose proof (lookup_lt_Some _ _ _ Hk) as Hlt.
    change (length Noise.p_init) with 256%nat in Hlt.
    exists (Z.of_nat k). split; [ lia | ].
    rewrite Hget by lia. rewrite Z.mod_small by lia. rewrite Nat2Z.id.
    rewrite (nth_lookup_Some _ _ 0 _ Hk). rewrite lxor_twice. reflexivity.
Qed.

Lemma byte_seed_permutation_witness :
  exists i, 0 <= i < 256 /\ JS.get (Noise.perm (Noise.new (inject_Z 42))) i = Some 7.
Proof.
  exact (proj2 (proj2 (byte_seed_permutation 42 ltac:(lia))) 7 ltac:(lia)).
Defined.

(** ** The period of the sample *)

(** [perlin2] on full tables, with the reads that give its six table
    values. *)
Lemma perlin2_gets (n : Noise.t) (x y : Q) :
  tablesFull n ->
  exists pY pY1 g00 g01 g10 g11,
    JS.get (Noise.perm n) (Noise.cell y) = Some pY /\
    JS.get (Noise.perm n) (Noise.cell y + 1) = Some pY1 /\
    JS.get (Noise.gradP n) (Noise.cell x + pY) = Some g00 /\
    JS.get (Noise.gradP n) (Noise.cell x + pY1) = Some g01 /\
    JS.get (Noise.gradP n) (Noise.cell x + 1 + pY) = Some g10 /\
    JS.get (Noise.gradP n) (Noise.cell x + 1 + pY1) = Some g11 /\
    Noise.perlin2 n x y = Some (blend g00 g01 g10 g11 (Noise.frac x) (Noise.frac y)).
Proof.
  intros Hfull.
  pose proof (cell_range x) as HX. pose proof (cell_range y) as HY.
  destruct (Hfull (Noise.cell y) ltac:(lia)) as [(pY & HpY & HbY) _].
  destruct (Hfull (Noise.cell y + 1) ltac:(lia)) as [(pY1 & HpY1 & HbY1) _].
  destruct (Hfull (Noise.cell x + pY) ltac:(lia)) as [_ (g00 & Hg00)].
  destruct (Hfull (Noise.cell x + pY1) ltac:(lia)) as [_ (g01 & Hg01)].
  destruct (Hfull (Noise.cell x + 1 + pY) ltac:(lia)) as [_ (g10 & Hg10)].
  destruct (Hfull (Noise.cell x + 1 + pY1) ltac:(lia)) as [_ (g11 & Hg11)].
  exists pY, pY1, g00, g01, g10, g11. repeat (split; [ assumption | ]).
  unfold Noise.perlin2, Noise.perlin2_reader, Noise.bind, Noise.readPerm,
    Noise.readGradP, Noise.ret.
  cbv beta zeta.
  rewrite HpY; cbv beta iota. rewrite Hg00; cbv beta iota.
  rewrite HpY1; cbv beta iota. rewrite Hg01; cbv beta iota.
  rewrite Hg10; cbv beta iota. rewrite Hg11; cbv beta iota.
  reflexivity.
Qed.

Lemma floor_plus_integer (x : Q) (m : Z) : JS.floor (x + inject_Z m) = JS.floor x + m.
Proof.
  unfold JS.floor.
  pose proof (Qfloor_le x) as Hlo. pose proof (Qlt_floor x) as Hhi.
  pose proof (Qfloor_le (x + inject_Z m)) as Hlo'.
  pose proof (Qlt_floor (x + inject_Z m)) as Hhi'.
  assert (H1 : (inject_Z (Qfloor (x + inject_Z m)) < inject_Z (Qfloor x + 1 + m))%Q).
  { rewrite !inject_Z_plus in *. lra. }
  assert (H2 : (inject_Z (Qfloor x + m) < inject_Z (Qfloor (x + inject_Z m) + 1))%Q).
  { rewrite !inject_Z_plus in *. lra. }
  rewrite <- Zlt_Qlt in H1, H2. lia.
Qed.

Lemma cell_period (x : Q) (k : Z) : Noise.cell (x + inject_Z (256 * k)) = Noise.cell x.
Proof.
  unfold Noise.cell. rewrite !mask_low, floor_plus_integer.
  rewrite (Z.mul_comm 256 k). apply Z_mod_plus_full.
Qed.

Lemma frac_period (x : Q) (m : Z) : (Noise.frac (x + inject_Z m) == Noise.frac x)%Q.
Proof.
  unfold Noise.frac. rewrite floor_plus_integer, inject_Z_plus. ring.
Qed.

Lemma blend_comp (g00 g01 g10 g11 : Grad.t) (fx fx' fy fy' : Q) :
  (fx == fx' -> fy == fy' ->
   blend g00 g01 g10 g11 fx fy == blend g00 g01 g10 g11 fx' fy')%Q.
Proof.
  intros Hx Hy. unfold blend, Noise.lerp, Noise.fade, Grad.dot2.
  rewrite Hx, Hy. reflexivity.
Qed.

(** X4.  The sample has period 256 along both axes: on every generator an
    engine can hold, moving a point by whole multiples of 256 in [x] and
    in [y] gives the same sample. *)
Theorem perlin2_period_256 (sd0 : Q) (history : list Q) (x y : Q) (k l : Z) :
  exists r r',
    Noise.perlin2 (Noise.reseeded sd0 history)
      (x + inject_Z (256 * k)) (y + inject_Z (256 * l)) = Some r /\
    Noise.perlin2 (Noise.reseeded sd0 history) x y = Some r' /\
    (r == r')%Q.
Proof.
  pose proof (reseeded_tablesFull sd0 history) as Hfull.
  generalize dependent (Noise.reseeded sd0 history). intros n Hfull.
  destruct (perlin2_gets n (x + inject_Z (256 * k)) (y + inject_Z (256 * l)) Hfull)
    as (pY & pY1 & g00 & g01 & g10 & g11 & HpY & HpY1 & H00 & H01 & H10 & H11 & Hrun).
  destruct (perlin2_gets n x y Hfull)
    as (qY & qY1 & h00 & h01 & h10 & h11 & HqY & HqY1 & K00 & K01 & K10 & K11 & Hrun').
  rewrite !cell_period in *.
  assert (pY = qY) by congruence. assert (pY1 = qY1) by congruence. subst qY qY1.
  assert (g00 = h00) by congruence. assert (g01 = h01) by congruence.
  assert (g10 = h10) by congruence. assert (g11 = h11) by congruence.
  subst h00 h01 h10 h11.
  eexists; eexists. split; [ exact Hrun | ]. split; [ exact Hrun' | ].
  apply blend_comp; apply frac_period.
Qed.

(** * Further properties of the engine *)

(** ** The simulator keeps the lattice *)

Lemma movePoint_base (cfg : Config.t) (M : Math) (nz : Noise.t) (ms : MouseState.t)
    (time : Q) (p p' : Point.t) :
  movePoint cfg nz ms time p = Some p' ->
  Point.x p' = Point.x p /\ Point.y p' = Point.y p.
Proof.
  unfold movePoint. destruct (Noise.perlin2 nz _ _) as [sample | ]; [ | discriminate ].
  cbn [mbind option_bind]. destruct (JS.lt _ _); cbv zeta; intros [= <-]; split; reflexivity.
Qed.

(** Two grids of the same shape whose points have the same base positions. *)
Definition sameLattice (ls ls' : list (list Point.t)) : Prop :=
  Forall2 (Forall2 (fun p p' => Point.x p' = Point.x p /\ Point.y p' = Point.y p)) ls ls'.

Lemma moveGrid_sameLattice (cfg : Config.t) (M : Math) (nz : Noise.t) (ms : MouseState.t)
    (time : Q) (ls ls' : list (list Point.t)) :
  moveGrid cfg nz ms time ls = Some ls' -> sameLattice ls ls'.
Proof.
  unfold moveGrid, sameLattice. intros Hrun. apply mapM_Some_1 in Hrun.
  eapply Forall2_impl; [ exact Hrun | ]. intros col col' Hcol. cbv beta in Hcol.
  apply mapM_Some_1 in Hcol.
  eapply Forall2_impl; [ exact Hcol | ]. intros p p' Hp. cbv beta in Hp.
  exact (movePoint_base cfg M nz ms time p p' Hp).
Qed.

(** X10.  [movePoints] completes on every engine with a seeded generator and
    changes nothing but the wave and cursor state of the points: the grid
    keeps its columns, every column its length, every point its base
    position, and the pointer, the drawing log, the frame time and handle,
    the rectangle and the generator are left as they were. *)
Theorem movePoints_keeps_lattice (cfg : Config.t) (M : Math) (sd0 : Q) (history : list Q)
    (time : Q) (e : Engine) :
  noise e = Noise.reseeded sd0 history ->
  exists e',
    movePoints cfg time e = Some e' /\
    Forall2 (Forall2 (fun p p' => Point.x p' = Point.x p /\ Point.y p' = Point.y p))
            (lines e) (lines e') /\
    mouse e' = mouse e /\ ctx e' = ctx e /\ lastTime e' = lastTime e /\
    frameId e' = frameId e /\ bounding e' = bounding e /\ noise e' = noise e.
Proof.
  intros Hnoise.
  pose proof (reseeded_tablesFull sd0 history) as Hfull. rewrite <- Hnoise in Hfull.
  destruct (moveGrid_full cfg M (noise e) (mouse e) time (lines e) Hfull) as (ls' & Hrun & _).
  exists (with_lines e ls'). split.
  - unfold movePoints. rewrite Hrun. reflexivity.
  - split; [ exact (moveGrid_sameLattice cfg M _ _ _ _ _ Hrun) | repeat split ].
Qed.

Lemma movePoints_keeps_lattice_witness :
  exists e',
    @movePoints config RefMath 33
      (with_lines (mounted (Rect.mk 320 200 0 0) 0)
                  [[newPoint config 0 0 0 0; newPoint config 0 0 0 1]]) = Some e' /\
    Forall2 (Forall2 (fun p p' => Point.x p' = Point.x p /\ Point.y p' = Point.y p))
            [[newPoint config 0 0 0 0; newPoint config 0 0 0 1]] (lines e').
Proof.
  destruct (movePoints_keeps_lattice config RefMath 0 [] 33
              (with_lines (mounted (Rect.mk 320 200 0 0) 0)
                          [[newPoint config 0 0 0 0; newPoint config 0 0 0 1]]))
    as (e' & Hrun & Hsame & _); [ reflexivity | ].
  exists e'. split; [ exact Hrun | exact Hsame ].
Defined.

(** ** The pointer follower *)

From Stdlib Require Import Qpower.

Lemma advance_step (M : Math) (m : MouseState.t) :
  MouseState.x (advance m) = MouseState.x m /\
  MouseState.y (advance m) = MouseState.y m /\
  (MouseState.x m - MouseState.sx (advance m)
     == 0.94 * (MouseState.x m - MouseState.sx m))%Q /\
  (MouseState.y m - MouseState.sy (advance m)
     == 0.94 * (MouseState.y m - MouseState.sy m))%Q /\
  (MouseState.vs (advance m) <= 60)%Q.
Proof.
  unfold advance. cbn [MouseState.x MouseState.y MouseState.sx MouseState.sy MouseState.vs].
  repeat split; try ring. apply Q.le_min_l.
Qed.

Lemma power_succ (a : Q) (n : nat) :
  ~ (a == 0)%Q -> (a ^ Z.of_nat (S n) == a * a ^ Z.of_nat n)%Q.
Proof.
  intros Hnz. rewrite Nat2Z.inj_succ. unfold Z.succ.
  rewrite Qpower_plus by exact Hnz. simpl (a ^ 1)%Q. ring.
Qed.

(** X11.  While no input arrives, [advance] leaves the pointer position
    alone and pulls the smoothed position towards it geometrically: after
    [n] calls the remaining offset on each axis is [0.94 ^ n] times the
    offset at the start.  After any call the smoothed speed is at most 60. *)
Theorem advance_follows_pointer (M : Math) (m : MouseState.t) (n : nat) :
  MouseState.x (Nat.iter n advance m) = MouseState.x m /\
  MouseState.y (Nat.iter n advance m) = MouseState.y m /\
  (MouseState.x m - MouseState.sx (Nat.iter n advance m)
     == 0.94 ^ Z.of_nat n * (MouseState.x m - MouseState.sx m))%Q /\
  (MouseState.y m - MouseState.sy (Nat.iter n advance m)
     == 0.94 ^ Z.of_nat n * (MouseState.y m - MouseState.sy m))%Q /\
  (MouseState.vs (Nat.iter (S n) advance m) <= 60)%Q.
Proof.
  assert (Hmain :
    MouseState.x (Nat.iter n advance m) = MouseState.x m /\
    MouseState.y (Nat.iter n advance m) = MouseState.y m /\
    (MouseState.x m - MouseState.sx (Nat.iter n advance m)
       == 0.94 ^ Z.of_nat n * (MouseState.x m - MouseState.sx m))%Q /\
    (MouseState.y m - MouseState.sy (Nat.iter n advance m)
       == 0.94 ^ Z.of_nat n * (MouseState.y m - MouseState.sy m))%Q).
  { induction n as [ | n (IHx & IHy & IHsx & IHsy) ].
    - cbn [Nat.iter nat_rect]. change (Z.of_nat 0) with 0%Z.
      repeat split; try reflexivity; simpl (0.94 ^ 0)%Q; ring.
    - rewrite (iter_succ advance n).
      destruct (advance_step M (Nat.iter n advance m)) as (Hx & Hy & Hsx & Hsy & _).
      rewrite IHx in Hx, Hsx. rewrite IHy in Hy, Hsy.
      split; [ exact Hx | ]. split; [ exact Hy | ].
      rewrite !(power_succ 0.94 n) by (intros Hz; discriminate Hz). split.
      + rewrite Hsx, IHsx. ring.
      + rewrite Hsy, IHsy. ring. }
  destruct Hmain as (Hx & Hy & Hsx & Hsy).
  repeat (split; [ assumption | ]).
  rewrite (iter_succ advance n). apply advance_step.
Qed.

(** ** Pointer input *)

(** X12.  The first pointer event ([set] still false) puts the position,
    the smoothed position and the last position all at the event's point
    relative to the surface and sets [set]; the [advance] that follows then
    measures a speed of 0 and leaves the smoothed position on the pointer.
    A later event moves the position only: smoothed and last position stay
    where they were. *)
Theorem first_input_snaps (M : Math) (x y x' y' : Q) (e : Engine) :
  MouseState.set (mouse e) = false ->
  let m1 := mouse (updateMouse x y e) in
  let m2 := mouse (updateMouse x' y' (updateMouse x y e)) in
  MouseState.set m1 = true /\
  MouseState.x m1 = (x - Rect.left (bounding e))%Q /\
  MouseState.y m1 = (y - Rect.top (bounding e))%Q /\
  MouseState.sx m1 = MouseState.x m1 /\ MouseState.sy m1 = MouseState.y m1 /\
  MouseState.lx m1 = MouseState.x m1 /\ MouseState.ly m1 = MouseState.y m1 /\
  (MouseState.v (advance m1) == 0)%Q /\
  (MouseState.sx (advance m1) == MouseState.x m1)%Q /\
  (MouseState.sy (advance m1) == MouseState.y m1)%Q /\
  MouseState.x m2 = (x' - Rect.left (bounding e))%Q /\
  MouseState.y m2 = (y' - Rect.top (bounding e))%Q /\
  MouseState.sx m2 = MouseState.sx m1 /\ MouseState.sy m2 = MouseState.sy m1 /\
  MouseState.lx m2 = MouseState.lx m1 /\ MouseState.ly m2 = MouseState.ly m1.
Proof.
  intros Hset m1 m2. subst m1 m2. unfold updateMouse.
  cbn [mouse with_mouse bounding]. rewrite Hset.
  cbn [MouseState.set MouseState.x MouseState.y MouseState.sx MouseState.sy
       MouseState.lx MouseState.ly].
  repeat (split; [ reflexivity | ]).
  unfold advance.
  cbn [MouseState.v MouseState.x MouseState.y MouseState.sx MouseState.sy
       MouseState.lx MouseState.ly].
  split; [ apply hypot_zero; ring | ].
  split; [ ring | ]. split; [ ring | ].
  repeat split.
Qed.

Lemma first_input_snaps_witness :
  (MouseState.v (@advance RefMath
                   (mouse (updateMouse 150 90 (mounted (Rect.mk 320 200 10 20) 0)))) == 0)%Q /\
  MouseState.sx (mouse (updateMouse 170 95
                          (updateMouse 150 90 (mounted (Rect.mk 320 200 10 20) 0))))
  = MouseState.sx (mouse (updateMouse 150 90 (mounted (Rect.mk 320 200 10 20) 0))).
Proof.
  pose proof (first_input_snaps RefMath 150 90 170 95 (mounted (Rect.mk 320 200 10 20) 0)
                eq_refl) as H.
  cbv zeta in H.
  destruct H as (_ & _ & _ & _ & _ & _ & _ & Hv & _ & _ & _ & _ & Hsx & _).
  split; [ exact Hv | exact Hsx ].
Defined.

(** ** An accepted frame *)




(** * The grid and the path in double precision

    Where the outcome turns on the rounding of JavaScript's numbers (the
    number of columns [setLines] builds, the tenth at which [moved] puts a
    coordinate), the functions are modelled on IEEE 754 binary64 values:
    [+], [-], [*] and [/] are the primitive operations, rounding to nearest
    with ties to even as the host does; [Math.ceil] and [Math.round] are
    written out on the sign, mantissa and exponent of their argument. *)

From Corelib Require Import PrimFloat FloatOps SpecFloat FloatAxioms.

Module Binary64.

(** The double of an integer [0 <= z <= 2^53] (exact on that range). *)
Definition ofZ (z : Z) : float :=
  SF2Prim (binary_normalize prec emax z 0 false).

(** [Math.ceil]: a double [m * 2^e] with [e >= 0] is an integer already;
    [NaN], the infinities and the zeros are returned as they are; a
    negative argument above -1 gives [-0]. *)
Definition ceil (f : float) : float :=
  match Prim2SF f with
  | S754_finite s m e =>
      if 0 <=? e then f
      else
        let d := 2 ^ (- e) in
        let q := Z.pos m / d in
        if s then (if q =? 0 then (-0)%float else (- ofZ q)%float)
        else ofZ (if Z.pos m mod d =? 0 then q else q + 1)
  | _ => f
  end.

(** [Math.round]: the integer [floor(f + 1/2)] taken on the exact value of
    [f] (halves go up); a result of zero keeps the sign of [f]. *)
Definition round (f : float) : float :=
  match Prim2SF f with
  | S754_finite s m e =>
      if 0 <=? e then f
      else
        let d := 2 ^ (- e) in
        let k := (if s then d - 2 * Z.pos m else 2 * Z.pos m + d) / (2 * d) in
        if k =? 0 then (if s then (-0)%float else 0%float)
        else if k <? 0 then (- ofZ (- k))%float else ofZ k
  | _ => f
  end.

(** The greatest integer [i] with [i <= f], as far as a loop counter is
    concerned: an integer, or what [f] is instead. *)
Definition floorBound (f : float) : JS.Bound :=
  match Prim2SF f with
  | S754_zero _ => JS.Finite 0
  | S754_infinity false => JS.PosInfinity
  | S754_infinity true => JS.NegInfinity
  | S754_nan => JS.NaN
  | S754_finite s m e =>
      let n := if s then Z.neg m else Z.pos m in
      JS.Finite (if 0 <=? e then n * 2 ^ e else n / 2 ^ (- e))
  end.

(** A double that is a number: neither [NaN] nor an infinity. *)
Definition finite (f : float) : bool :=
  match Prim2SF f with
  | S754_zero _ | S754_finite _ _ _ => true
  | S754_infinity _ | S754_nan => false
  end.

(** The rational a double stands for (0 for [NaN] and the infinities). *)
Definition exact (f : float) : Q :=
  match Prim2SF f with
  | S754_finite s m e =>
      let n := if s then Z.neg m else Z.pos m in
      if 0 <=? e then inject_Z (n * 2 ^ e) else n # Z.to_pos (2 ^ (- e))
  | _ => 0%Q
  end.

(** The most elements an array holds: [push] on an array of that length
    throws a RangeError. *)
Definition maxArrayLength : Z := 2 ^ 32 - 1.

(** The indices visited by [for (let i = 0; i <= total; i++) { ...push... }],
    a loop whose every iteration pushes one element onto the same array.
    [None] when the loop does not complete: with [total] at [Infinity] it
    never ends, and with [total] at [maxArrayLength] or more the push that
    would make the array longer than [maxArrayLength] throws.  (The counter
    itself is exact up to [2^53].)  A comparison with [NaN] is false. *)
Definition upTo (total : float) : option (list Z) :=
  match floorBound total with
  | JS.Finite n => if n <? maxArrayLength then Some (JS.range 0 (n + 1)) else None
  | JS.PosInfinity => None
  | JS.NegInfinity | JS.NaN => Some []
  end.

Module Wave.
Record t : Type := mk { x : float; y : float }.
End Wave.

Module Cursor.
Record t : Type := mk { x : float; y : float; vx : float; vy : float }.
End Cursor.

Module Point.
Record t : Type := mk { x : float; y : float; wave : Wave.t; cursor : Cursor.t }.
End Point.

(** The fields of [config] that [setLines] and [drawLines] read. *)
Module Config.
Record t : Type := mk { lineColor : string; xGap : float; yGap : float }.
End Config.

Definition config : Config.t :=
  {| Config.lineColor := "rgba(156, 163, 175, 0.25)";
     Config.xGap := 16; Config.yGap := 40 |}.

Inductive DrawCall : Type :=
| ClearRect (x y w h : float)
| BeginPath
| SetStrokeStyle (color : string)
| SetLineWidth (w : float)
| MoveTo (x y : float)
| LineTo (x y : float)
| Stroke.

(** The refs [setLines] and [drawLines] touch: the width and height of
    [boundingRef.current], [linesRef.current], and the calls received by
    the context held in [ctxRef.current]. *)
Record Surface : Type := mkSurface {
  width : float;
  height : float;
  lines : list (list Point.t);
  ctx : option (list DrawCall)
}.

Definition with_lines (s : Surface) (ls : list (list Point.t)) : Surface :=
  mkSurface (width s) (height s) ls (ctx s).

Definition with_ctx (s : Surface) (c : option (list DrawCall)) : Surface :=
  mkSurface (width s) (height s) (lines s) c.

Section Effect.

Context (cfg : Config.t).

Local Open Scope float_scope.

(** The object literal pushed by the inner loop of [setLines]. *)
Definition newPoint (xStart yStart i j : float) : Point.t :=
  {| Point.x := xStart + Config.xGap cfg * i;
     Point.y := yStart + Config.yGap cfg * j;
     Point.wave := {| Wave.x := 0; Wave.y := 0 |};
     Point.cursor := {| Cursor.x := 0; Cursor.y := 0; Cursor.vx := 0; Cursor.vy := 0 |} |}.

(** [setLines()]; [None] when one of its loops does not complete. *)
Definition setLines (s : Surface) : option Surface :=
  let oWidth := width s + 100 in
  let oHeight := height s + 50 in
  let xGap := Config.xGap cfg in
  let yGap := Config.yGap cfg in
  let totalLines := ceil (oWidth / xGap) in
  let totalPoints := ceil (oHeight / yGap) in
  let xStart := (width s - xGap * totalLines) / 2 in
  let yStart := (height s - yGap * totalPoints) / 2 in
  columns ← upTo totalLines;
  ls ← mapM (fun i =>
               rows ← upTo totalPoints;
               Some (map (fun j => newPoint xStart yStart (ofZ i) (ofZ j)) rows)) columns;
  Some (with_lines s ls).

(** [Math.round(x * 10) / 10]. *)
Definition round1 (x : float) : float := round (x * 10) / 10.

(** [moved(point, withCursor)]. *)
Definition moved (point : Point.t) (withCursor : bool) : Wave.t :=
  let x := Point.x point + Wave.x (Point.wave point)
           + (if withCursor then Cursor.x (Point.cursor point) else 0) in
  let y := Point.y point + Wave.y (Point.wave point)
           + (if withCursor then Cursor.y (Point.cursor point) else 0) in
  {| Wave.x := round1 x; Wave.y := round1 y |}.

(** The body of the inner [forEach] of [drawLines]: the calls made for the
    point [p] at index [idx] of [points]. *)
Definition drawPoint (points : list Point.t) (idx : nat) (p : Point.t) : list DrawCall :=
  let isLast := (idx =? length points - 1)%nat in
  let p1 := moved p (negb isLast) in
  LineTo (Wave.x p1) (Wave.y p1) ::
  (if isLast then
     match points !! (length points - 1)%nat with
     | Some q => let p2 := moved q (negb isLast) in [MoveTo (Wave.x p2) (Wave.y p2)]
     | None => []
     end
   else []).

(** The body of the outer [forEach] of [drawLines]: the calls made for one
    column. *)
Definition drawColumn (points : list Point.t) : list DrawCall :=
  match points with
  | [] => []
  | p0 :: _ =>
      let p1 := moved p0 false in
      MoveTo (Wave.x p1) (Wave.y p1) :: concat (imap (drawPoint points) points)
  end.

(** [drawLines()]. *)
Definition drawLines (s : Surface) : Surface :=
  match ctx s with
  | None => s
  | Some calls =>
      let calls := calls ++ [ClearRect 0 0 (width s) (height s);
                             BeginPath;
                             SetStrokeStyle (Config.lineColor cfg);
                             SetLineWidth 1] in
      let calls := fold_left (fun cs points => cs ++ drawColumn points) (lines s) calls in
      with_ctx s (Some (calls ++ [Stroke]))
  end.

End Effect.

End Binary64.

(** ** Integers as doubles *)

Lemma digits2_iter (p d : positive) :
  digits2_pos (Pos.iter xO p d) = (digits2_pos p + d)%positive.
Proof.
  induction d as [ | d IH ] using Pos.peano_ind.
  - simpl. lia.
  - rewrite Pos.iter_succ. simpl. rewrite IH. lia.
Qed.

Lemma iter_xO_value (p d : positive) :
  Z.pos (Pos.iter xO p d) = Z.pos p * 2 ^ Z.pos d.
Proof.
  induction d as [ | d IH ] using Pos.peano_ind.
  - simpl. lia.
  - rewrite Pos.iter_succ, Pos2Z.inj_succ, Z.pow_succ_r by lia.
    rewrite Pos2Z.inj_xO, IH. lia.
Qed.

Lemma digits2_bounds (p : positive) :
  2 ^ (Z.pos (digits2_pos p) - 1) <= Z.pos p < 2 ^ Z.pos (digits2_pos p).
Proof.
  induction p as [ p IH | p IH | ]; cbn [digits2_pos].
  - rewrite Pos2Z.inj_succ. replace (Z.succ (Z.pos (digits2_pos p)) - 1)
      with (Z.succ (Z.pos (digits2_pos p) - 1)) by lia.
    rewrite !Z.pow_succ_r by lia. lia.
  - rewrite Pos2Z.inj_succ. replace (Z.succ (Z.pos (digits2_pos p)) - 1)
      with (Z.succ (Z.pos (digits2_pos p) - 1)) by lia.
    rewrite !Z.pow_succ_r by lia. lia.
  - simpl. lia.
Qed.

Lemma digits2_le (p : positive) (n : Z) :
  Z.pos p < 2 ^ n -> Z.pos (digits2_pos p) <= n.
Proof.
  intros Hp. pose proof (digits2_bounds p) as [Hlo _].
  destruct (Z.le_gt_cases (Z.pos (digits2_pos p)) n) as [Hle | Hgt]; [ exact Hle | ].
  exfalso.
  assert (0 <= n).
  { destruct (Z.lt_ge_cases n 0) as [Hneg | Hpos]; [ | exact Hpos ].
    rewrite Z.pow_neg_r in Hp by exact Hneg. lia. }
  assert (2 ^ n <= 2 ^ (Z.pos (digits2_pos p) - 1)) by (apply Z.pow_le_mono_r; lia).
  lia.
Qed.

(** A mantissa of 53 bits with an exponent in range is rounded to itself. *)
Lemma round_aux_exact (sx : bool) (m : positive) (e : Z) :
  Z.pos (digits2_pos m) = 53 -> -1074 <= e <= 971 ->
  binary_round_aux prec emax sx (Z.pos m) e loc_Exact = S754_finite sx m e.
Proof.
  intros Hdig He.
  unfold binary_round_aux, shr_fexp, Zdigits2, fexp, emin, shr, prec, emax.
  rewrite Hdig.
  assert (H0 : IntDef.Z.sub (IntDef.Z.max (IntDef.Z.sub (IntDef.Z.add 53 e) 53)
                               (IntDef.Z.sub (IntDef.Z.sub 3 1024) 53)) e = 0) by lia.
  rewrite H0.
  cbn [shr_record_of_loc shr_m loc_of_shr_record round_nearest_even].
  rewrite Hdig, H0. cbn [shr_m].
  destruct (Z.leb_spec e (IntDef.Z.sub 1024 53)) as [_ | Hbad]; [ reflexivity | lia ].
Qed.

Lemma valid_53 (sx : bool) (m : positive) (e : Z) :
  Z.pos (digits2_pos m) = 53 -> -1074 <= e <= 971 ->
  valid_binary (S754_finite sx m e) = true.
Proof.
  intros Hdig He.
  unfold SpecFloat.valid_binary, bounded, canonical_mantissa, fexp, emin, prec, emax.
  rewrite Hdig. apply andb_true_intro. split; [ apply Z.eqb_eq | apply Z.leb_le ]; lia.
Qed.

(** The double of a positive integer below [2^53]: the integer itself,
    its mantissa shifted up to 53 bits. *)
Lemma normalize_integer (p : positive) :
  Z.pos p < 2 ^ 53 ->
  exists m e,
    binary_normalize prec emax (Z.pos p) 0 false = S754_finite false m e /\
    valid_binary (S754_finite false m e) = true /\
    e <= 0 /\ Z.pos m = Z.pos p * 2 ^ (- e).
Proof.
  intros Hp. apply digits2_le in Hp.
  unfold binary_normalize, binary_round, shl_align.
  unfold fexp, emin, prec, emax.
  assert (Hf : IntDef.Z.max (IntDef.Z.sub (IntDef.Z.add (Z.pos (digits2_pos p)) 0) 53)
                 (IntDef.Z.sub (IntDef.Z.sub 3 1024) 53)
               = Z.pos (digits2_pos p) - 53) by lia.
  rewrite !Hf.
  destruct (IntDef.Z.sub (Z.pos (digits2_pos p) - 53) 0) as [ | d | d ] eqn:Hd; [ | lia | ].
  - exists p, 0.
    assert (Hdig : Z.pos (digits2_pos p) = 53) by lia.
    split; [ apply round_aux_exact; [ exact Hdig | lia ] | ].
    split; [ apply valid_53; [ exact Hdig | lia ] | ].
    split; [ lia | simpl; lia ].
  - exists (Pos.iter xO p d), (Z.pos (digits2_pos p) - 53).
    assert (Hdig : Z.pos (digits2_pos (Pos.iter xO p d)) = 53)
      by (rewrite digits2_iter; lia).
    split; [ apply round_aux_exact; [ exact Hdig | lia ] | ].
    split; [ apply valid_53; [ exact Hdig | lia ] | ].
    split; [ lia | ]. rewrite iter_xO_value. f_equal. f_equal. lia.
Qed.

Lemma Prim2SF_ofZ (k : Z) :
  0 < k < 2 ^ 53 ->
  exists m e,
    Prim2SF (Binary64.ofZ k) = S754_finite false m e /\
    e <= 0 /\ Z.pos m = k * 2 ^ (- e).
Proof.
  intros [Hpos Hlt]. destruct k as [ | p | p ]; [ lia | | lia ].
  destruct (normalize_integer p Hlt) as (m & e & Hnorm & Hvalid & He & Hm).
  exists m, e. unfold Binary64.ofZ. rewrite Hnorm.
  split; [ apply Prim2SF_SF2Prim, Hvalid | ]. split; assumption.
Qed.

Lemma pow2_pos (n : Z) : 0 <= n -> 0 < 2 ^ n.
Proof. intros Hn. apply Z.pow_pos_nonneg; lia. Qed.

Lemma floorBound_ofZ (k : Z) :
  0 <= k < 2 ^ 53 -> Binary64.floorBound (Binary64.ofZ k) = JS.Finite k.
Proof.
  intros [Hpos Hlt]. destruct (Z.eq_dec k 0) as [-> | Hne]; [ reflexivity | ].
  destruct (Prim2SF_ofZ k ltac:(lia)) as (m & e & Hk & He & Hm).
  unfold Binary64.floorBound. rewrite Hk, Hm. f_equal.
  pose proof (pow2_pos (- e) ltac:(lia)) as Hd.
  destruct (Z.leb_spec 0 e) as [He0 | He0].
  - assert (e = 0) by lia. subst e.
    change (2 ^ (- 0)) with 1. change (2 ^ 0) with 1. lia.
  - apply Z.div_mul. lia.
Qed.

Lemma floorBound_opp_ofZ (k : Z) :
  0 < k < 2 ^ 53 -> Binary64.floorBound (- Binary64.ofZ k)%float = JS.Finite (- k).
Proof.
  intros Hk. destruct (Prim2SF_ofZ k Hk) as (m & e & Hp & He & Hm).
  unfold Binary64.floorBound. rewrite opp_spec, Hp. cbn [SFopp negb]. f_equal.
  pose proof (pow2_pos (- e) ltac:(lia)) as Hd.
  change (Z.neg m) with (- Z.pos m). rewrite Hm.
  destruct (Z.leb_spec 0 e) as [He0 | He0].
  - assert (e = 0) by lia. subst e.
    change (2 ^ (- 0)) with 1. change (2 ^ 0) with 1. lia.
  - rewrite <- Z.mul_opp_l. apply Z.div_mul. lia.
Qed.

Lemma exact_ofZ (k : Z) :
  0 <= k < 2 ^ 53 -> (Binary64.exact (Binary64.ofZ k) == inject_Z k)%Q.
Proof.
  intros [Hpos Hlt]. destruct (Z.eq_dec k 0) as [-> | Hne]; [ reflexivity | ].
  destruct (Prim2SF_ofZ k ltac:(lia)) as (m & e & Hk & He & Hm).
  unfold Binary64.exact. rewrite Hk, Hm.
  pose proof (pow2_pos (- e) ltac:(lia)) as Hd.
  destruct (Z.leb_spec 0 e) as [He0 | He0].
  - assert (e = 0) by lia. subst e.
    change (2 ^ (- 0)) with 1. change (2 ^ 0) with 1. rewrite !Z.mul_1_r. reflexivity.
  - unfold Qeq, inject_Z. cbn [Qnum Qden]. rewrite Z2Pos.id by exact Hd. lia.
Qed.

Lemma exact_opp_ofZ (k : Z) :
  0 < k < 2 ^ 53 -> (Binary64.exact (- Binary64.ofZ k)%float == inject_Z (- k))%Q.
Proof.
  intros Hk. destruct (Prim2SF_ofZ k Hk) as (m & e & Hp & He & Hm).
  unfold Binary64.exact. rewrite opp_spec, Hp. cbn [SFopp negb].
  pose proof (pow2_pos (- e) ltac:(lia)) as Hd.
  change (Z.neg m) with (- Z.pos m). rewrite Hm.
  destruct (Z.leb_spec 0 e) as [He0 | He0].
  - assert (e = 0) by lia. subst e.
    change (2 ^ (- 0)) with 1. change (2 ^ 0) with 1. rewrite !Z.mul_1_r. reflexivity.
  - unfold Qeq, inject_Z. cbn [Qnum Qden]. rewrite Z2Pos.id by exact Hd. lia.
Qed.

(** The mantissa of a double has at most 53 bits. *)
Lemma mantissa_bound (f : float) (s : bool) (m : positive) (e : Z) :
  Prim2SF f = S754_finite s m e -> Z.pos m < 2 ^ 53.
Proof.
  intros Hf. pose proof (Prim2SF_valid f) as Hvalid. rewrite Hf in Hvalid.
  unfold SpecFloat.valid_binary, bounded, canonical_mantissa, fexp, emin, prec, emax in Hvalid.
  apply andb_prop in Hvalid as [Hcanon _]. apply Z.eqb_eq in Hcanon.
  pose proof (digits2_bounds m) as [_ Hhi].
  assert (Hdig : Z.pos (digits2_pos m) <= 53) by lia.
  eapply Z.lt_le_trans; [ exact Hhi | ]. apply Z.pow_le_mono_r; lia.
Qed.

Lemma ceiling_fraction (n d : Z) :
  0 < d -> - ((- n) / d) = if n mod d =? 0 then n / d else n / d + 1.
Proof.
  intros Hd. destruct (Z.eqb_spec (n mod d) 0) as [Hz | Hnz].
  - rewrite Z.div_opp_l_z by lia. lia.
  - rewrite Z.div_opp_l_nz by lia. lia.
Qed.

(** [Math.ceil] is the ceiling of the exact value of its argument. *)
Lemma floorBound_ceil (f : float) :
  Binary64.finite f = true ->
  Binary64.floorBound (Binary64.ceil f) = JS.Finite (JS.ceil (Binary64.exact f)).
Proof.
  unfold Binary64.finite. intros Hfin.
  destruct (Prim2SF f) as [ sz | si | | s m e ] eqn:Hf; try discriminate.
  - unfold Binary64.ceil, Binary64.floorBound, Binary64.exact. rewrite Hf. rewrite Hf.
    reflexivity.
  - pose proof (mantissa_bound f s m e Hf) as Hm.
    unfold Binary64.ceil, Binary64.exact. rewrite Hf.
    destruct (Z.leb_spec 0 e) as [He | He].
    + unfold Binary64.floorBound. rewrite Hf.
      destruct (Z.leb_spec 0 e) as [_ | Hbad]; [ | lia ].
      unfold JS.ceil. rewrite Qceiling_Z. reflexivity.
    + pose proof (pow2_pos (- e) ltac:(lia)) as Hd.
      assert (Hd2 : 2 <= 2 ^ (- e)).
      { change 2 with (2 ^ 1) at 1. apply Z.pow_le_mono_r; lia. }
      cbv zeta. unfold JS.ceil, Qceiling, Qfloor, Qopp. cbn [Qnum Qden].
      rewrite Z2Pos.id by exact Hd.
      set (d := 2 ^ (- e)) in *.
      pose proof (Z.div_pos (Z.pos m) d ltac:(lia) Hd) as Hq0.
      assert (Hq1 : Z.pos m / d < 2 ^ 52).
      { apply Z.div_lt_upper_bound; [ exact Hd | ].
        change (2 ^ 53) with (2 * 2 ^ 52) in Hm. nia. }
      destruct s.
      * change (- Z.neg m) with (Z.pos m).
        destruct (Z.eqb_spec (Z.pos m / d) 0) as [Hz | Hnz].
        -- rewrite Hz. reflexivity.
        -- rewrite floorBound_opp_ofZ; [ reflexivity | ].
           change (2 ^ 53) with (2 * 2 ^ 52). lia.
      * rewrite ceiling_fraction by exact Hd.
        assert (Hk : 0 < (if Z.pos m mod d =? 0 then Z.pos m / d else Z.pos m / d + 1)).
        { destruct (Z.eqb_spec (Z.pos m mod d) 0) as [Hz | Hnz]; [ | lia ].
          pose proof (Z.div_mod (Z.pos m) d ltac:(lia)). nia. }
        rewrite floorBound_ofZ; [ reflexivity | ].
        change (2 ^ 53) with (2 * 2 ^ 52).
        destruct (Z.pos m mod d =? 0); lia.
Qed.

(** [Math.round] is [floor(v + 1/2)] on the exact value of its argument. *)
Lemma exact_round (f : float) :
  Binary64.finite f = true ->
  (Binary64.exact (Binary64.round f) == inject_Z (JS.round (Binary64.exact f)))%Q.
Proof.
  unfold Binary64.finite. intros Hfin.
  destruct (Prim2SF f) as [ sz | si | | s m e ] eqn:Hf; try discriminate.
  - unfold Binary64.round, Binary64.exact. rewrite Hf. rewrite Hf. reflexivity.
  - pose proof (mantissa_bound f s m e Hf) as Hm.
    unfold Binary64.round. rewrite Hf.
    destruct (Z.leb_spec 0 e) as [He | He].
    + unfold Binary64.exact. rewrite Hf.
      destruct (Z.leb_spec 0 e) as [_ | Hbad]; [ | lia ].
      unfold JS.round.
      set (n := (if s then Z.neg m else Z.pos m) * 2 ^ e).
      unfold Qfloor, Qplus, inject_Z. cbn [Qnum Qden].
      replace (n * 2 + 1 * 1) with (1 + n * 2) by lia.
      change (Z.pos (1 * 2)) with 2.
      rewrite Z.div_add by lia. reflexivity.
    + pose proof (pow2_pos (- e) ltac:(lia)) as Hd.
      assert (Hd2 : 2 <= 2 ^ (- e)).
      { change 2 with (2 ^ 1) at 1. apply Z.pow_le_mono_r; lia. }
      assert (Hex : Binary64.exact f
                    = (if s then Z.neg m else Z.pos m) # Z.to_pos (2 ^ (- e))).
      { unfold Binary64.exact. rewrite Hf.
        destruct (Z.leb_spec 0 e) as [Hbad | _]; [ lia | reflexivity ]. }
      rewrite Hex. cbv zeta. unfold JS.round, Qfloor, Qplus. cbn [Qnum Qden].
      rewrite Pos2Z.inj_mul, Z2Pos.id by exact Hd.
      set (d := 2 ^ (- e)) in *.
      replace ((if s then Z.neg m else Z.pos m) * 2 + 1 * d)
        with (if s then d - 2 * Z.pos m else 2 * Z.pos m + d)
        by (destruct s; lia).
      rewrite (Z.mul_comm d 2).
      set (k := (if s then d - 2 * Z.pos m else 2 * Z.pos m + d) / (2 * d)).
      assert (Hk : - 2 ^ 53 < k < 2 ^ 53).
      { pose proof (Z.div_mod (if s then d - 2 * Z.pos m else 2 * Z.pos m + d) (2 * d)
                      ltac:(lia)) as Hdm.
        pose proof (Z.mod_pos_bound (if s then d - 2 * Z.pos m else 2 * Z.pos m + d) (2 * d)
                      ltac:(lia)) as Hr.
        fold k in Hdm. change (2 ^ 53) with (2 * 2 ^ 52) in *.
        destruct s; split; nia. }
      destruct (Z.eqb_spec k 0) as [Hz | Hnz].
      * rewrite Hz. destruct s; reflexivity.
      * destruct (Z.ltb_spec k 0) as [Hneg | Hpos].
        -- rewrite exact_opp_ofZ by lia. rewrite Z.opp_involutive. reflexivity.
        -- apply exact_ofZ. lia.
Qed.

(** ** The loops of [setLines] *)

(** A quotient at which a loop of [setLines] cannot complete (it is
    [Infinity], or its ceiling is the greatest array length or more), and
    one at which the loop body runs at least once. *)
Definition overruns (q : float) : Prop :=
  Prim2SF q = S754_infinity false \/
  (Binary64.finite q = true /\ Binary64.maxArrayLength <= JS.ceil (Binary64.exact q)).

Definition entered (q : float) : Prop :=
  Binary64.finite q = true /\ 0 <= JS.ceil (Binary64.exact q).

Lemma double_upTo_ceil (q : float) :
  Binary64.upTo (Binary64.ceil q) =
    match Prim2SF q with
    | S754_infinity false => None
    | S754_infinity true | S754_nan => Some []
    | S754_zero _ | S754_finite _ _ _ =>
        if JS.ceil (Binary64.exact q) <? Binary64.maxArrayLength
        then Some (JS.range 0 (JS.ceil (Binary64.exact q) + 1))
        else None
    end.
Proof.
  destruct (Prim2SF q) as [ sz | si | | s m e ] eqn:Hq.
  - unfold Binary64.upTo. rewrite floorBound_ceil; [ reflexivity | ].
    unfold Binary64.finite. rewrite Hq. reflexivity.
  - unfold Binary64.upTo, Binary64.ceil, Binary64.floorBound. rewrite Hq. rewrite Hq.
    destruct si; reflexivity.
  - unfold Binary64.upTo, Binary64.ceil, Binary64.floorBound. rewrite Hq. rewrite Hq.
    reflexivity.
  - unfold Binary64.upTo. rewrite floorBound_ceil; [ reflexivity | ].
    unfold Binary64.finite. rewrite Hq. reflexivity.
Qed.

Lemma double_upTo_finite (q : float) :
  Binary64.finite q = true ->
  JS.ceil (Binary64.exact q) < Binary64.maxArrayLength ->
  Binary64.upTo (Binary64.ceil q) = Some (JS.range 0 (JS.ceil (Binary64.exact q) + 1)).
Proof.
  intros Hfin Hlt. rewrite double_upTo_ceil. unfold Binary64.finite in Hfin.
  destruct (Z.ltb_spec (JS.ceil (Binary64.exact q)) Binary64.maxArrayLength)
    as [_ | Hge]; [ | lia ].
  destruct (Prim2SF q); try discriminate; reflexivity.
Qed.

Lemma double_upTo_None (q : float) :
  Binary64.upTo (Binary64.ceil q) = None <-> overruns q.
Proof.
  rewrite double_upTo_ceil. unfold overruns, Binary64.finite.
  destruct (Prim2SF q) as [ sz | si | | s m e ].
  - destruct (Z.ltb_spec (JS.ceil (Binary64.exact q)) Binary64.maxArrayLength)
      as [Hlt | Hge].
    + split; [ discriminate | ]. intros [Hinf | [_ Hle]]; [ discriminate | lia ].
    + split; [ intros _; right; split; [ reflexivity | exact Hge ] | reflexivity ].
  - destruct si.
    + split; [ discriminate | ]. intros [Hinf | [Hfin _]]; discriminate.
    + split; [ intros _; left; reflexivity | reflexivity ].
  - split; [ discriminate | ]. intros [Hinf | [Hfin _]]; discriminate.
  - destruct (Z.ltb_spec (JS.ceil (Binary64.exact q)) Binary64.maxArrayLength)
      as [Hlt | Hge].
    + split; [ discriminate | ]. intros [Hinf | [_ Hle]]; [ discriminate | lia ].
    + split; [ intros _; right; split; [ reflexivity | exact Hge ] | reflexivity ].
Qed.

Lemma range_entered (n : Z) : JS.range 0 (n + 1) <> [] <-> 0 <= n.
Proof.
  split.
  - intros Hne. destruct (Z.lt_ge_cases n 0) as [Hneg | Hpos]; [ | exact Hpos ].
    exfalso. apply Hne. apply range_empty. lia.
  - intros Hpos Hnil. apply (f_equal (@length Z)) in Hnil.
    rewrite range_length in Hnil. simpl in Hnil. lia.
Qed.

Lemma double_upTo_entered (q : float) (l : list Z) :
  Binary64.upTo (Binary64.ceil q) = Some l -> (l <> [] <-> entered q).
Proof.
  rewrite double_upTo_ceil. unfold entered, Binary64.finite.
  destruct (Prim2SF q) as [ sz | si | | s m e ].
  - destruct (JS.ceil (Binary64.exact q) <? Binary64.maxArrayLength); [ | discriminate ].
    intros Hl. injection Hl as <-. rewrite range_entered. tauto.
  - destruct si; [ | discriminate ].
    intros Hl. injection Hl as <-. split; [ congruence | intros [Hfin _]; discriminate ].
  - intros Hl. injection Hl as <-. split; [ congruence | intros [Hfin _]; discriminate ].
  - destruct (JS.ceil (Binary64.exact q) <? Binary64.maxArrayLength); [ | discriminate ].
    intros Hl. injection Hl as <-. rewrite range_entered. tauto.
Qed.

(** The grid [setLines] builds when both loops complete. *)
Lemma double_setLines_runs (cfg : Binary64.Config.t) (s : Binary64.Surface)
    (columns rows : list Z) :
  Binary64.upTo
    (Binary64.ceil ((Binary64.width s + 100) / Binary64.Config.xGap cfg)) = Some columns ->
  Binary64.upTo
    (Binary64.ceil ((Binary64.height s + 50) / Binary64.Config.yGap cfg)) = Some rows ->
  Binary64.setLines cfg s =
    Some (Binary64.with_lines s
            (map (fun i =>
                    map (fun j =>
                           Binary64.newPoint cfg
                             ((Binary64.width s
                               - Binary64.Config.xGap cfg
                                 * Binary64.ceil ((Binary64.width s + 100)
                                                  / Binary64.Config.xGap cfg)) / 2)
                             ((Binary64.height s
                               - Binary64.Config.yGap cfg
                                 * Binary64.ceil ((Binary64.height s + 50)
                                                  / Binary64.Config.yGap cfg)) / 2)
                             (Binary64.ofZ i) (Binary64.ofZ j))
                        rows)
                 columns)).
Proof.
  intros Hc Hr. unfold Binary64.setLines. cbv zeta. rewrite Hc, Hr.
  cbn [mbind option_bind].
  rewrite (mapM_total _ (fun i =>
             map (fun j =>
                    Binary64.newPoint cfg
                      ((Binary64.width s
                        - Binary64.Config.xGap cfg
                          * Binary64.ceil ((Binary64.width s + 100)
                                           / Binary64.Config.xGap cfg)) / 2)
                      ((Binary64.height s
                        - Binary64.Config.yGap cfg
                          * Binary64.ceil ((Binary64.height s + 50)
                                           / Binary64.Config.yGap cfg)) / 2)
                      (Binary64.ofZ i) (Binary64.ofZ j))
                 rows)) by reflexivity.
  reflexivity.
Qed.

(** ** The lattice built by [setLines] *)

(** C1, against the claim as stated.  With the component's gaps of 16 and
    40: on a surface of width 28.000000000000007 the padded width rounds
    to 128, so [setLines] builds 9 columns, while
    [ceil((w + 100) / 16) + 1] is 10; on a surface of height
    30.000000000000004 every column has 3 points, while
    [ceil((h + 50) / 40) + 1] is 4.  And with the positive gap
    [2^-1074] the quotient is [Infinity] and [setLines] does not return. *)
Lemma setLines_rounds_before_ceil :
  (fun s => length (Binary64.lines s))
    <$> Binary64.setLines Binary64.config
          (Binary64.mkSurface 0x1.c000000000002p+4 200 [] None) = Some 9%nat /\
  Qceiling ((Binary64.exact 0x1.c000000000002p+4 + 100) / Binary64.exact 16) + 1 = 10 /\
  (fun s => map (fun col => length col) (Binary64.lines s))
    <$> Binary64.setLines Binary64.config
          (Binary64.mkSurface 320 0x1.e000000000001p+4 [] None) = Some (repeat 3%nat 28) /\
  Qceiling ((Binary64.exact 0x1.e000000000001p+4 + 50) / Binary64.exact 40) + 1 = 4 /\
  (0 < Binary64.exact 0x1p-1074)%Q /\
  Binary64.setLines (Binary64.Config.mk "grey" 0x1p-1074 40)
    (Binary64.mkSurface 320 200 [] None) = None.
Proof. vm_compute. repeat split. Qed.

(** C1, as the code has it.  Let [qx] be the quotient [(w + 100) / xGap] and
    [qy] the quotient [(h + 50) / yGap] as the code computes them, in
    double precision, both of them numbers, and let [T] and [U] be their
    ceilings, both at least 0 and below the greatest array length.  Then
    [setLines] returns a grid of exactly [T + 1] columns, each of exactly
    [U + 1] points.  The point at column [i], row [j] has its base position
    at [(xStart + xGap * i, yStart + yGap * j)], where
    [xStart = (w - xGap * totalLines) / 2] and
    [yStart = (h - yGap * totalPoints) / 2], all in the code's arithmetic;
    its wave offset, cursor offset and cursor velocity are zero. *)
Theorem setLines_double_lattice (cfg : Binary64.Config.t) (s : Binary64.Surface) (T U : Z) :
  Binary64.finite ((Binary64.width s + 100) / Binary64.Config.xGap cfg) = true ->
  Binary64.finite ((Binary64.height s + 50) / Binary64.Config.yGap cfg) = true ->
  JS.ceil (Binary64.exact ((Binary64.width s + 100) / Binary64.Config.xGap cfg)) = T ->
  JS.ceil (Binary64.exact ((Binary64.height s + 50) / Binary64.Config.yGap cfg)) = U ->
  0 <= T < Binary64.maxArrayLength -> 0 <= U < Binary64.maxArrayLength ->
  exists ls,
    Binary64.setLines cfg s = Some (Binary64.with_lines s ls) /\
    Z.of_nat (length ls) = T + 1 /\
    (forall (i : nat) col, ls !! i = Some col -> Z.of_nat (length col) = U + 1) /\
    (forall (i j : nat) col p, ls !! i = Some col -> col !! j = Some p ->
       p = {| Binary64.Point.x :=
                (Binary64.width s
                 - Binary64.Config.xGap cfg
                   * Binary64.ceil ((Binary64.width s + 100) / Binary64.Config.xGap cfg)) / 2
                + Binary64.Config.xGap cfg * Binary64.ofZ (Z.of_nat i);
              Binary64.Point.y :=
                (Binary64.height s
                 - Binary64.Config.yGap cfg
                   * Binary64.ceil ((Binary64.height s + 50) / Binary64.Config.yGap cfg)) / 2
                + Binary64.Config.yGap cfg * Binary64.ofZ (Z.of_nat j);
              Binary64.Point.wave := {| Binary64.Wave.x := 0; Binary64.Wave.y := 0 |};
              Binary64.Point.cursor :=
                {| Binary64.Cursor.x := 0; Binary64.Cursor.y := 0;
                   Binary64.Cursor.vx := 0; Binary64.Cursor.vy := 0 |} |}%float) /\
    (forall k : Z, 0 <= k < Binary64.maxArrayLength ->
       (Binary64.exact (Binary64.ofZ k) == inject_Z k)%Q).
Proof.
  intros Hfx Hfy HT HU [HT0 HT1] [HU0 HU1].
  pose proof (double_upTo_finite _ Hfx) as Hcols. rewrite HT in Hcols.
  pose proof (double_upTo_finite _ Hfy) as Hrows. rewrite HU in Hrows.
  eexists. split.
  - apply (double_setLines_runs cfg s _ _ (Hcols HT1) (Hrows HU1)).
  - split; [ rewrite length_map, range_length; lia | ]. split; [ | split ].
    + intros i col Hcol. apply list_lookup_fmap_Some in Hcol as (k & -> & _).
      rewrite length_map, range_length. lia.
    + intros i j col p Hcol Hpt.
      apply list_lookup_fmap_Some in Hcol as (k & -> & Hk).
      apply list_lookup_fmap_Some in Hpt as (k' & -> & Hk').
      pose proof (lookup_lt_Some _ _ _ Hk) as Hi. rewrite range_length in Hi.
      pose proof (lookup_lt_Some _ _ _ Hk') as Hj. rewrite range_length in Hj.
      rewrite range_lookup in Hk by exact Hi. rewrite range_lookup in Hk' by exact Hj.
      injection Hk as <-. injection Hk' as <-. reflexivity.
    + intros k Hk. apply exact_ofZ. unfold Binary64.maxArrayLength in Hk. lia.
Qed.

Lemma setLines_double_lattice_witness :
  Binary64.finite ((320 + 100) / Binary64.Config.xGap Binary64.config) = true /\
  Binary64.finite ((200 + 50) / Binary64.Config.yGap Binary64.config) = true /\
  JS.ceil (Binary64.exact ((320 + 100) / Binary64.Config.xGap Binary64.config)) = 27 /\
  JS.ceil (Binary64.exact ((200 + 50) / Binary64.Config.yGap Binary64.config)) = 7 /\
  exists ls,
    Binary64.setLines Binary64.config (Binary64.mkSurface 320 200 [] None)
      = Some (Binary64.with_lines (Binary64.mkSurface 320 200 [] None) ls) /\
    Z.of_nat (length ls) = 27 + 1 /\
    (forall (i : nat) col, ls !! i = Some col -> Z.of_nat (length col) = 7 + 1).
Proof.
  split; [ vm_compute; reflexivity | ]. split; [ vm_compute; reflexivity | ].
  split; [ vm_compute; reflexivity | ]. split; [ vm_compute; reflexivity | ].
  destruct (setLines_double_lattice Binary64.config (Binary64.mkSurface 320 200 [] None) 27 7)
    as (ls & Hrun & Hcols & Hrows & _);
    [ vm_compute; reflexivity | vm_compute; reflexivity
    | vm_compute; reflexivity | vm_compute; reflexivity
    | unfold Binary64.maxArrayLength; lia | unfold Binary64.maxArrayLength; lia | ].
  exists ls. split; [ exact Hrun | ]. split; [ exact Hcols | exact Hrows ].
Defined.

(** X14.  When [setLines] returns.  It does not return exactly when the
    outer loop cannot complete (the quotient [(w + 100) / xGap] is
    [Infinity], or its ceiling is the greatest array length or more), or
    the outer loop is entered and the inner loop cannot complete. *)
Theorem setLines_returns (cfg : Binary64.Config.t) (s : Binary64.Surface) :
  Binary64.setLines cfg s = None <->
  overruns ((Binary64.width s + 100) / Binary64.Config.xGap cfg) \/
  (entered ((Binary64.width s + 100) / Binary64.Config.xGap cfg) /\
   overruns ((Binary64.height s + 50) / Binary64.Config.yGap cfg)).
Proof.
  destruct (Binary64.upTo
              (Binary64.ceil ((Binary64.width s + 100) / Binary64.Config.xGap cfg)))
    as [columns | ] eqn:Hc.
  - pose proof (double_upTo_entered _ _ Hc) as Hentered.
    assert (Hnot : ~ overruns ((Binary64.width s + 100) / Binary64.Config.xGap cfg)).
    { intros Hover. apply double_upTo_None in Hover. congruence. }
    destruct (Binary64.upTo
                (Binary64.ceil ((Binary64.height s + 50) / Binary64.Config.yGap cfg)))
      as [rows | ] eqn:Hr.
    + rewrite (double_setLines_runs cfg s columns rows Hc Hr).
      split; [ discriminate | ].
      intros [Hover | [_ Hover]]; [ contradiction | ].
      apply double_upTo_None in Hover. congruence.
    + apply double_upTo_None in Hr as Hover.
      destruct columns as [ | i columns ].
      * split.
        -- unfold Binary64.setLines. cbv zeta. rewrite Hc. discriminate.
        -- intros [H | [Hent _]]; [ contradiction | ].
           apply Hentered in Hent. congruence.
      * split.
        -- intros _. right. split; [ apply Hentered; discriminate | exact Hover ].
        -- intros _. unfold Binary64.setLines. cbv zeta. rewrite Hc, Hr. reflexivity.
  - split.
    + intros _. left. apply double_upTo_None. exact Hc.
    + intros _. unfold Binary64.setLines. cbv zeta. rewrite Hc. reflexivity.
Qed.

(** The grid on a 320 x 200 surface: 28 columns of 8 points, the first
    point at (-56, -40), the last at (376, 240). *)
Example double_setLines_320_200 :
  (fun s => (length (Binary64.lines s),
             map (fun col => length col) (Binary64.lines s),
             head (concat (Binary64.lines s)), last (concat (Binary64.lines s))))
    <$> Binary64.setLines Binary64.config (Binary64.mkSurface 320 200 [] None)
  = Some (28%nat, repeat 8%nat 28,
          Some (Binary64.Point.mk (-56) (-40) (Binary64.Wave.mk 0 0) (Binary64.Cursor.mk 0 0 0 0)),
          Some (Binary64.Point.mk 376 240 (Binary64.Wave.mk 0 0) (Binary64.Cursor.mk 0 0 0 0)))%float.
Proof. vm_compute. reflexivity. Qed.

(** ** The path drawn for a column *)

(** The calls for a non-empty column, point by point. *)
Lemma double_drawColumn_calls (init : list Binary64.Point.t) (last : Binary64.Point.t) :
  Binary64.drawColumn (init ++ [last]) =
    Binary64.MoveTo (Binary64.Wave.x (Binary64.moved (hd last init) false))
                    (Binary64.Wave.y (Binary64.moved (hd last init) false))
    :: map (fun p => Binary64.LineTo (Binary64.Wave.x (Binary64.moved p true))
                                     (Binary64.Wave.y (Binary64.moved p true))) init
    ++ [Binary64.LineTo (Binary64.Wave.x (Binary64.moved last false))
                        (Binary64.Wave.y (Binary64.moved last false));
        Binary64.MoveTo (Binary64.Wave.x (Binary64.moved last false))
                        (Binary64.Wave.y (Binary64.moved last false))].
Proof.
  assert (Hlen : (length (init ++ [last]) - 1 = length init)%nat)
    by (rewrite length_app; simpl; lia).
  assert (Hbody :
            concat (imap (Binary64.drawPoint (init ++ [last])) (init ++ [last])) =
            map (fun p => Binary64.LineTo (Binary64.Wave.x (Binary64.moved p true))
                                          (Binary64.Wave.y (Binary64.moved p true))) init
            ++ [Binary64.LineTo (Binary64.Wave.x (Binary64.moved last false))
                                (Binary64.Wave.y (Binary64.moved last false));
                Binary64.MoveTo (Binary64.Wave.x (Binary64.moved last false))
                                (Binary64.Wave.y (Binary64.moved last false))]).
  { rewrite imap_app, concat_app. f_equal.
    - rewrite (imap_ext _ (const (fun p =>
                 [Binary64.LineTo (Binary64.Wave.x (Binary64.moved p true))
                                  (Binary64.Wave.y (Binary64.moved p true))]))).
      + rewrite imap_const. apply concat_singletons.
      + intros i p Hp. apply lookup_lt_Some in Hp.
        unfold Binary64.drawPoint. rewrite Hlen.
        destruct (Nat.eqb_spec i (length init)) as [Heq | _]; [ lia | reflexivity ].
    - cbn [imap concat]. rewrite app_nil_r. unfold Binary64.drawPoint.
      rewrite Hlen, Nat.add_0_r.
      rewrite Nat.eqb_refl, list_lookup_middle by reflexivity. reflexivity. }
  destruct init as [ | p0 init ].
  - exact (f_equal (cons _) Hbody).
  - exact (f_equal (cons _) Hbody).
Qed.

Lemma double_drawLines_calls (cfg : Binary64.Config.t) (s : Binary64.Surface)
    (calls : list Binary64.DrawCall) :
  Binary64.ctx s = Some calls ->
  Binary64.ctx (Binary64.drawLines cfg s) =
    Some (calls
          ++ [Binary64.ClearRect 0 0 (Binary64.width s) (Binary64.height s);
              Binary64.BeginPath; Binary64.SetStrokeStyle (Binary64.Config.lineColor cfg);
              Binary64.SetLineWidth 1]
          ++ concat (map Binary64.drawColumn (Binary64.lines s))
          ++ [Binary64.Stroke]).
Proof.
  intros Hctx. unfold Binary64.drawLines. rewrite Hctx.
  cbn [Binary64.ctx Binary64.with_ctx]. f_equal.
  assert (Hfold : forall ls acc,
            fold_left (fun cs points => cs ++ Binary64.drawColumn points) ls acc
            = acc ++ concat (map Binary64.drawColumn ls)).
  { induction ls as [ | col ls IH ]; intros acc'; simpl.
    - rewrite app_nil_r. reflexivity.
    - rewrite IH, <- app_assoc. reflexivity. }
  rewrite Hfold, <- !app_assoc. reflexivity.
Qed.

(** C8, against the claim as stated.  A column of one point at
    [x = 0.15] (the double just below it), [y = 2.5], with no wave and no
    cursor offset: the product [x * 10] rounds to the double 1.5, which
    [Math.round] takes to 2, so the point is issued at [x = 0.2] although
    0.1 is the tenth nearest to [x]: the issued abscissa is more than a
    twentieth away from [x], the double 0.1 is less than a twentieth
    away. *)
Lemma moved_rounds_the_double_product :
  Binary64.drawColumn
    [Binary64.Point.mk 0x1.3333333333333p-3 2.5 (Binary64.Wave.mk 0 0)
                       (Binary64.Cursor.mk 0 0 0 0)]
  = [Binary64.MoveTo 0x1.999999999999ap-3 2.5; Binary64.LineTo 0x1.999999999999ap-3 2.5;
     Binary64.MoveTo 0x1.999999999999ap-3 2.5]%float /\
  ((1 # 20) < Qabs (Binary64.exact 0x1.999999999999ap-3 - Binary64.exact 0x1.3333333333333p-3)
   /\ Qabs (Binary64.exact 0x1.999999999999ap-4 - Binary64.exact 0x1.3333333333333p-3) < (1 # 20)
   /\ Binary64.exact 0x1.3333333333333p-3 < (15 # 100)
   /\ Qabs (Binary64.exact 0x1.999999999999ap-3 - (2 # 10)) < (1 # 1000000)
   /\ Qabs (Binary64.exact 0x1.999999999999ap-4 - (1 # 10)) < (1 # 1000000))%Q.
Proof. vm_compute. repeat split. Qed.

(** C8, as the code has it.  What [drawLines] sends to the drawing context,
    for any grid: after clearing the surface, beginning a path and setting
    the stroke, the calls of the columns one after the other, then one
    stroke.  An empty column makes no call.  A column [init ++ [last]]
    starts a sub-path of its own with a [moveTo] (at its first point,
    without cursor offset); every point but the last is then joined with a
    [lineTo] at base position + wave offset + cursor offset; the last point
    is joined with a [lineTo] at base position + wave offset + 0, without
    the cursor offset, followed by a [moveTo] to the same place.  Every
    coordinate [v] is issued as [Math.round(v * 10) / 10], the sums, the
    product and the quotient in double precision, [Math.round] taking a
    number to [floor] of its exact value plus a half. *)
Theorem drawLines_column_paths (cfg : Binary64.Config.t) (s : Binary64.Surface)
    (calls : list Binary64.DrawCall) :
  Binary64.ctx (Binary64.drawLines cfg (Binary64.with_ctx s (Some calls))) =
    Some (calls
          ++ [Binary64.ClearRect 0 0 (Binary64.width s) (Binary64.height s);
              Binary64.BeginPath; Binary64.SetStrokeStyle (Binary64.Config.lineColor cfg);
              Binary64.SetLineWidth 1]
          ++ concat (map Binary64.drawColumn (Binary64.lines s))
          ++ [Binary64.Stroke]) /\
  Binary64.drawColumn [] = [] /\
  (forall (init : list Binary64.Point.t) (last : Binary64.Point.t),
     Binary64.drawColumn (init ++ [last]) =
       Binary64.MoveTo
         (Binary64.round
            ((Binary64.Point.x (hd last init)
              + Binary64.Wave.x (Binary64.Point.wave (hd last init)) + 0) * 10) / 10)
         (Binary64.round
            ((Binary64.Point.y (hd last init)
              + Binary64.Wave.y (Binary64.Point.wave (hd last init)) + 0) * 10) / 10)
       :: map (fun p =>
                 Binary64.LineTo
                   (Binary64.round
                      ((Binary64.Point.x p + Binary64.Wave.x (Binary64.Point.wave p)
                        + Binary64.Cursor.x (Binary64.Point.cursor p)) * 10) / 10)
                   (Binary64.round
                      ((Binary64.Point.y p + Binary64.Wave.y (Binary64.Point.wave p)
                        + Binary64.Cursor.y (Binary64.Point.cursor p)) * 10) / 10))
              init
       ++ [Binary64.LineTo
             (Binary64.round
                ((Binary64.Point.x last + Binary64.Wave.x (Binary64.Point.wave last) + 0)
                 * 10) / 10)
             (Binary64.round
                ((Binary64.Point.y last + Binary64.Wave.y (Binary64.Point.wave last) + 0)
                 * 10) / 10);
           Binary64.MoveTo
             (Binary64.round
                ((Binary64.Point.x last + Binary64.Wave.x (Binary64.Point.wave last) + 0)
                 * 10) / 10)
             (Binary64.round
                ((Binary64.Point.y last + Binary64.Wave.y (Binary64.Point.wave last) + 0)
                 * 10) / 10)])%float /\
  (forall v : float,
     Binary64.finite v = true ->
     (Binary64.exact (Binary64.round v) == inject_Z (JS.round (Binary64.exact v)))%Q).
Proof.
  split; [ | split; [ reflexivity | split ] ].
  - apply (double_drawLines_calls cfg (Binary64.with_ctx s (Some calls)) calls). reflexivity.
  - intros init last. rewrite double_drawColumn_calls. reflexivity.
  - exact exact_round.
Qed.

(** A column of three points with wave and cursor offsets: the last point
    is issued without its cursor offset, the others with it. *)
Example double_drawColumn_sample :
  Binary64.drawColumn
    [Binary64.Point.mk 8 0 (Binary64.Wave.mk 0.25 0.5) (Binary64.Cursor.mk 1 2 0 0);
     Binary64.Point.mk 8 40 (Binary64.Wave.mk (-0.25) 0.75) (Binary64.Cursor.mk 3 4 0 0);
     Binary64.Point.mk 8 80 (Binary64.Wave.mk 0.125 0.5) (Binary64.Cursor.mk 5 6 0 0)]
  = [Binary64.MoveTo 0x1.099999999999ap+3 0.5;
     Binary64.LineTo 0x1.299999999999ap+3 2.5;
     Binary64.LineTo 0x1.599999999999ap+3 0x1.6666666666666p+5;
     Binary64.LineTo 0x1.0333333333333p+3 80.5;
     Binary64.MoveTo 0x1.0333333333333p+3 80.5]%float.
Proof. vm_compute. reflexivity. Qed.
